(** * useForm: the validation-error mapping of [src/composables/useForm.ts]

    A shallow embedding of the composable [useForm]: the reactive
    [errors] record is a finite map from dotted paths to messages, the
    result of [schema.safeParse] is a sum whose failure side carries the
    formatted error tree and the issue list, and the three closures
    [validate], [validateField] and [handleSubmit] are state-passing
    functions over the reactive state of the form. *)

From Stdlib Require Import String Ascii List DecimalString.
From stdpp Require Import gmap strings list fin_maps.

Local Open Scope string_scope.

(** ** JavaScript strings *)

Module Js.

(** Truthiness of a string: [if (parentPath)], [parentPath ? a : b]. *)
Definition truthy (s : string) : bool :=
  match s with
  | EmptyString => false
  | String _ _ => true
  end.

Definition dot : ascii := "."%char.

(** [path.split(".")]: the segments between the dots; never an empty
    array, the empty string splits into one empty segment. *)
Fixpoint split (s : string) : list string :=
  match s with
  | EmptyString => [EmptyString]
  | String c s' =>
      if Ascii.eqb c dot then EmptyString :: split s'
      else match split s' with
           | [] => [String c EmptyString]
           | seg :: segs => String c seg :: segs
           end
  end.

(** [parts.join(".")] on an array of strings. *)
Definition join (parts : list string) : string := String.concat "." parts.

(** [String(n)] for an array index. *)
Definition ofIndex (n : N) : string := NilZero.string_of_uint (N.to_uint n).

End Js.

(** ** The formatted error tree

    [result.error.format()] is an object with the array [_errors] of the
    messages of this level and one nested object of the same shape per
    failing key. [Object.entries] lists the nested objects in the order
    of the property list kept here. *)

#[local] Unset Elimination Schemes.
Inductive FormattedError : Type :=
  | Node (_errors : list string) (children : list (string * FormattedError)).

#[local] Set Elimination Schemes.

Definition messages (t : FormattedError) : list string :=
  match t with Node ms _ => ms end.

Definition entries (t : FormattedError) : list (string * FormattedError) :=
  match t with Node _ ch => ch end.

(** [errors] : [reactive<Record<string, string>>], its keys being
    ordinary property names. *)
Abbreviation ErrorMap := (gmap string string).

(** Line 56: [parentPath ? `${parentPath}.${key}` : key]. *)
Definition newPath (parentPath key : string) : string :=
  if Js.truthy parentPath then parentPath ++ "." ++ key else key.

(** Lines 39-60. The tests on [typeof errObj] and [Array.isArray] hold
    of every node of a formatted error; the test [key !== "_errors"]
    is kept as the source has it. *)
Fixpoint processErrors (errObj : FormattedError) (parentPath : string)
    (errors : ErrorMap) : ErrorMap :=
  match errObj with
  | Node _errors children =>
      let errors1 :=
        match _errors with
        | msg :: _ =>
            if Js.truthy parentPath then <[parentPath := msg]> errors
            else errors
        | [] => errors
        end in
      fold_left
        (fun acc kv =>
           if String.eqb (fst kv) "_errors" then acc
           else processErrors (snd kv) (newPath parentPath (fst kv)) acc)
        children errors1
  end.

(** Property access [errorObj[part]] guarded by [part in errorObj]. The
    nested objects are the own properties kept in [children]; a part
    that names [_errors] or a member inherited from [Object.prototype]
    reaches a value without an [_errors] array of its own, on which the
    loop and the final test of [validateField] behave as on [null]. *)
Fixpoint getProp (part : string) (props : list (string * FormattedError))
    : option FormattedError :=
  match props with
  | [] => None
  | (key, value) :: rest =>
      if String.eqb key part then Some value else getProp part rest
  end.

(** Lines 91-101: the loop over [pathParts], [None] standing for
    [null]; the [break] leaves the remaining parts unread. *)
Fixpoint descend (errorObj : option FormattedError) (pathParts : list string)
    : option FormattedError :=
  match pathParts with
  | [] => errorObj
  | part :: rest =>
      match errorObj with
      | Some obj =>
          match getProp part (entries obj) with
          | Some child => descend (Some child) rest
          | None => None
          end
      | None => None
      end
  end.

(** ** The schema capability *)

Abbreviation loc := positive.

(** A property holds a primitive or a reference to another object. *)
Inductive Value (Prim : Type) : Type :=
  | VPrim (p : Prim)
  | VRef (l : loc).
Arguments VPrim {Prim} p.
Arguments VRef {Prim} l.

(** The own properties of an object, and the objects by address. *)
Abbreviation Obj Prim := (gmap string (Value Prim)).
Abbreviation Heap Prim := (gmap loc (Obj Prim)).

(** An element of [issue.path] is a key or an array index. *)
Inductive PathElem : Type :=
  | Key (s : string)
  | Index (n : N).

Definition showElem (e : PathElem) : string :=
  match e with
  | Key s => s
  | Index n => Js.ofIndex n
  end.

Record ZodIssue : Type := { path : list PathElem; message : string }.

(** [result.error]: the issue list and the tree [format()] returns. *)
Record ZodError : Type := { issues : list ZodIssue; format : FormattedError }.

Inductive SafeParseReturn : Type :=
  | ParseSuccess
  | ParseFailure (error : ZodError).

(** [schema.safeParse] reads the object graph under the form and
    changes nothing. *)
Record Schema (Prim : Type) : Type :=
  { safeParse : Heap Prim -> loc -> SafeParseReturn }.
Arguments safeParse {Prim} _ _ _.

(** [issue.path.join(".")]. *)
Definition joinPath (p : list PathElem) : string := Js.join (map showElem p).

(** [issue.path.length > 0]. *)
Definition hasPath (issue : ZodIssue) : bool :=
  (0 <? length (path issue))%nat.

(** ** The reactive state of one form *)

Record World (Prim : Type) : Type :=
  { heap : Heap Prim;
    errors : ErrorMap;
    isSubmitting : bool;
    console : list (string * Value Prim) }.
Arguments heap {Prim} _.
Arguments errors {Prim} _.
Arguments isSubmitting {Prim} _.
Arguments console {Prim} _.

Section UseForm.
Context {Prim : Type}.
(** [schema] of the options and the object [form] is bound to. *)
Variable schema : Schema Prim.
Variable form : loc.

Definition setErrors (e : ErrorMap) (w : World Prim) : World Prim :=
  {| heap := heap w; errors := e;
     isSubmitting := isSubmitting w; console := console w |}.

Definition setSubmitting (b : bool) (w : World Prim) : World Prim :=
  {| heap := heap w; errors := errors w;
     isSubmitting := b; console := console w |}.

Definition setHeap (h : Heap Prim) (w : World Prim) : World Prim :=
  {| heap := h; errors := errors w;
     isSubmitting := isSubmitting w; console := console w |}.

Definition consoleError (label : string) (v : Value Prim) (w : World Prim)
    : World Prim :=
  {| heap := heap w; errors := errors w;
     isSubmitting := isSubmitting w;
     console := (console w ++ [(label, v)])%list |}.

(** Line 29: [Object.keys(errors).forEach((key) => delete errors[key])]. *)
Definition clearErrors (errs : ErrorMap) : ErrorMap :=
  fold_left (fun acc key => delete key acc) (elements (dom errs)) errs.

(** Lines 66-75: the placement of the root messages. *)
Definition placeRoot (error : ZodError) (errs : ErrorMap) : ErrorMap :=
  match messages (format error) with
  | msg :: _ =>
      match find hasPath (issues error) with
      | Some issue =>
          if hasPath issue then <[joinPath (path issue) := msg]> errs
          else errs
      | None => errs
      end
  | [] => errs
  end.

(** Lines 27-81. *)
Definition validate (w : World Prim) : bool * World Prim :=
  let errs := clearErrors (errors w) in
  match safeParse schema (heap w) form with
  | ParseFailure error =>
      let formattedErrors := format error in
      let errs := processErrors formattedErrors "" errs in
      let errs := placeRoot error errs in
      (false, setErrors errs w)
  | ParseSuccess => (true, setErrors errs w)
  end.

(** Lines 84-123. *)
Definition validateField (path : string) (w : World Prim)
    : bool * World Prim :=
  match safeParse schema (heap w) form with
  | ParseFailure error =>
      let formattedErrors := format error in
      let pathParts := Js.split path in
      let errorObj := descend (Some formattedErrors) pathParts in
      match errorObj with
      | Some (Node (msg :: _) _) =>
          (false, setErrors (<[path := msg]> (errors w)) w)
      | _ => (true, setErrors (delete path (errors w)) w)
      end
  | ParseSuccess => (true, setErrors (delete path (errors w)) w)
  end.

(** *** Submission: a state and exception monad

    A completion is normal or abrupt with the thrown value; a [Machine]
    pairs the world with the record of the calls made to the handler,
    which the handler itself cannot reach. *)

Inductive Completion (A : Type) : Type :=
  | Normal (a : A)
  | Throw (e : Value Prim).
Arguments Normal {A} a.
Arguments Throw {A} e.

Record Machine : Type :=
  { world : World Prim;
    invoked : list (loc * World Prim) }.

Definition Async (A : Type) : Type := Machine -> Completion A * Machine.

#[local] Instance async_ret : MRet Async := fun A a m => (Normal a, m).

#[local] Instance async_bind : MBind Async := fun A B k c m =>
  match c m with
  | (Normal a, m') => k a m'
  | (Throw e, m') => (Throw e, m')
  end.

(** A step on the world that cannot throw. *)
Definition step (f : World Prim -> World Prim) : Async unit :=
  fun m => (Normal tt, {| world := f (world m); invoked := invoked m |}).

Definition run {A : Type} (f : World Prim -> A * World Prim) : Async A :=
  fun m => let '(a, w) := f (world m) in
           (Normal a, {| world := w; invoked := invoked m |}).

(** [try { body } catch (error) { handler } finally { cleanup }]: the
    cleanup runs on every path, and its own abrupt completion would
    replace the one of the block. *)
Definition tryCatchFinally {A : Type} (body : Async A)
    (handler : Value Prim -> Async A) (cleanup : Async unit) : Async A :=
  fun m =>
    let '(r1, m1) := body m in
    let '(r2, m2) :=
      match r1 with
      | Normal a => (Normal a, m1)
      | Throw e => handler e m1
      end in
    match cleanup m2 with
    | (Normal _, m3) => (r2, m3)
    | (Throw e, m3) => (Throw e, m3)
    end.

(** [{ ...form }]: a new object with the own properties of [src]; the
    objects those properties refer to are shared, not copied. *)
Definition spread (src : loc) : Async loc :=
  fun m =>
    let h := heap (world m) in
    let l := fresh (dom h) in
    (Normal l,
     {| world := setHeap (<[l := default ∅ (h !! src)]> h) (world m);
        invoked := invoked m |}).

(** The caller's handler: it is given the snapshot, may change the
    world while it runs or is suspended, and completes normally or
    throws (a rejected promise throws at the [await]). A handler whose
    promise never settles is not among these. *)
Definition Handler : Type :=
  loc -> World Prim -> Completion unit * World Prim.

(** [await onSubmit(values)]. *)
Definition awaitCall (onSubmit : Handler) (values : loc) : Async unit :=
  fun m =>
    let '(r, w) := onSubmit values (world m) in
    (r, {| world := w; invoked := (invoked m ++ [(values, world m)])%list |}).

(** Lines 126-146: the action [handleSubmit(onSubmit)] returns. *)
Definition handleSubmit (onSubmit : Handler) : Async unit :=
  isValid ← run validate;
  if negb isValid then mret tt
  else
    tryCatchFinally
      (step (setSubmitting true);;
       values ← spread form;
       awaitCall onSubmit values)
      (fun error => step (consoleError "Form submission error:" error))
      (step (setSubmitting false)).

(** For the statements: the object [{ ...form }] allocates when the
    action is started in [w], and the world the handler then finds. *)
Definition snapshotOf (w : World Prim) : loc := fresh (dom (heap w)).

Definition callWorld (w : World Prim) : World Prim :=
  let w1 := setSubmitting true (snd (validate w)) in
  setHeap (<[snapshotOf w := default ∅ (heap w !! form)]> (heap w)) w1.
End UseForm.

Arguments Normal {Prim A} a.
Arguments Throw {Prim A} e.
Arguments world {Prim} _.
Arguments invoked {Prim} _.

(** ** Watching the leaves of the form *)

Section BindDynamicValid.
Context {Prim : Type}.
(** Which primitives are [null]. *)
Variable isNull : Prim -> bool.

(** [typeof v === "object"]: true of objects, of arrays and of [null]. *)
Definition typeofObject (v : Value Prim) : bool :=
  match v with
  | VRef _ => true
  | VPrim p => isNull p
  end.

(** [for (const key in values)] together with [values[key]]: the
    properties of the object [values]; none when [values] is [null].
    The order of the keys is that of the map, and plays no part in
    which watchers are installed. *)
Definition forIn (h : Heap Prim) (values : Value Prim)
    : list (string * Value Prim) :=
  match values with
  | VRef l => map_to_list (default ∅ (h !! l))
  | VPrim _ => []
  end.

(** One call [watch(() => values[key], () => validateField(target))]. *)
Record Watcher : Type :=
  { source : Value Prim; field : string; target : string }.

(** Lines 148-165. The path handed down or to [validateField] is
    [parent.length === 0 ? key : `${parent}.${key}`], the path of line
    56. The recursion follows the object graph and need not end: [fuel]
    bounds its depth, and [None] stands for a call that does not
    return. *)
Fixpoint bindDynamicValid (fuel : nat) (h : Heap Prim) (values : Value Prim)
    (parent : string) : option (list Watcher) :=
  match fuel with
  | O => None
  | S fuel' =>
      mjoin <$>
        mapM (fun kv =>
                if typeofObject (snd kv)
                then bindDynamicValid fuel' h (snd kv)
                       (newPath parent (fst kv))
                else Some [{| source := values; field := fst kv;
                              target := newPath parent (fst kv) |}])
             (forIn h values)
  end.

(** [holds h v k c]: [v] is an object of the heap and [v[k]] is [c]. *)
Definition holds (h : Heap Prim) (v : Value Prim) (k : string)
    (c : Value Prim) : Prop :=
  exists l o, v = VRef l /\ h !! l = Some o /\ o !! k = Some c.

(** [reaches h v ks v']: the keys [ks] lead from [v] to [v'] through
    values whose [typeof] is ["object"]. *)
Inductive reaches (h : Heap Prim) : Value Prim -> list string -> Value Prim -> Prop :=
  | reaches_here v : reaches h v [] v
  | reaches_down v k c ks v' :
      holds h v k c ->
      typeofObject c = true ->
      reaches h c ks v' ->
      reaches h v (k :: ks) v'.

(** Line 18: [reactive({ ...defaultValues })], the object the form is:
    a new object with the own properties of the default values, which
    are not copied further. *)
Definition copyOf (h : Heap Prim) (defaultValues : loc) : loc * Heap Prim :=
  let l := fresh (dom h) in
  (l, <[l := default ∅ (h !! defaultValues)]> h).
End BindDynamicValid.

Arguments source {Prim} _.
Arguments field {Prim} _.
Arguments target {Prim} _.

(** ** Paths in a formatted error, for the statements *)

(** [follows t ks t']: following the nested objects of [t] key by key
    along [ks] ends at [t']. *)
Inductive follows : FormattedError -> list string -> FormattedError -> Prop :=
  | follows_here t : follows t [] t
  | follows_down t k c ks t' :
      getProp k (entries t) = Some c ->
      follows c ks t' ->
      follows t (k :: ks) t'.

(** Some segment of [ks] is missing where the descent has arrived. *)
Definition absentAt (t : FormattedError) (ks : list string) : Prop :=
  exists ks1 k ks2 n,
    ks = (ks1 ++ k :: ks2)%list /\ follows t ks1 n /\ getProp k (entries n) = None.

Fixpoint hasDot (s : string) : bool :=
  match s with
  | EmptyString => false
  | String c s' => Ascii.eqb c Js.dot || hasDot s'
  end.

(** A key that is not empty and holds no dot. *)
Definition plainKey (k : string) : bool := Js.truthy k && negb (hasDot k).

Fixpoint distinct (ks : list string) : bool :=
  match ks with
  | [] => true
  | k :: ks' => negb (existsb (String.eqb k) ks') && distinct ks'
  end.

(** The keys of an object are distinct and [_errors] is not among the
    nested ones: true of every formatted error. *)
Fixpoint isObject (t : FormattedError) : bool :=
  match t with
  | Node _ ch =>
      distinct (map fst ch)
      && forallb (fun kv => negb (String.eqb (fst kv) "_errors")
                            && isObject (snd kv)) ch
  end.

Fixpoint plainKeys (t : FormattedError) : bool :=
  match t with
  | Node _ ch =>
      forallb (fun kv => plainKey (fst kv) && plainKeys (snd kv)) ch
  end.

(** The first-wins law as stated for every tree. *)
Definition firstWins (t : FormattedError) : Prop :=
  forall ks msg msgs ch,
    ks <> [] ->
    follows t ks (Node (msg :: msgs) ch) ->
    processErrors t "" ∅ !! Js.join ks = Some msg.

(** ** Dotted paths and the steps of the walk, for the proofs *)

(** What may follow a path inside a longer one: nothing, or a dot and
    more. *)
Definition tailOk (r : string) : Prop := r = "" \/ exists r0, r = "." ++ r0.

(** [below q p]: [p] is [q] or lies under [q]. *)
Definition below (q p : string) : Prop := exists r, p = q ++ r /\ tailOk r.

(** The path the walk hands to the node reached along [ks]. *)
Definition pathFrom (parent : string) (ks : list string) : string :=
  fold_left newPath ks parent.

Fixpoint dotted (ks : list string) : string :=
  match ks with
  | [] => ""
  | k :: ks' => "." ++ k ++ dotted ks'
  end.

(** One turn of the [forEach] over the entries. *)
Definition walkStep (parentPath : string) (acc : ErrorMap)
    (kv : string * FormattedError) : ErrorMap :=
  if String.eqb (fst kv) "_errors" then acc
  else processErrors (snd kv) (newPath parentPath (fst kv)) acc.

(** Lines 43-51: the message recorded for the node itself. *)
Definition recordHere (ms : list string) (parentPath : string)
    (errs : ErrorMap) : ErrorMap :=
  match ms with
  | msg :: _ =>
      if Js.truthy parentPath then <[parentPath := msg]> errs else errs
  | [] => errs
  end.

(** ** Sample forms *)

(** A schema that answers [r] whatever the form holds. *)
Definition constSchema (r : SafeParseReturn) : Schema string :=
  {| safeParse := fun _ _ => r |}.

(** [name] must be present and not empty. *)
Definition nameSchema : Schema string :=
  {| safeParse := fun h l =>
       match default ∅ (h !! l) !! "name" with
       | Some (VPrim (String _ _)) => ParseSuccess
       | _ =>
           ParseFailure
             {| issues := [{| path := [Key "name"]; message := "required" |}];
                format := Node [] [("name", Node ["required"] [])] |}
       end |}.

Definition formAt : loc := 1%positive.

Definition worldOf (o : Obj string) (e : ErrorMap) : World string :=
  {| heap := {[formAt := o]}; errors := e;
     isSubmitting := false; console := [] |}.

Definition emptyName : Obj string := {[ "name" := VPrim "" ]}.
Definition someName : Obj string := {[ "name" := VPrim "Ann" ]}.

(** Two nested fields whose dotted paths coincide. *)
Definition collide : FormattedError :=
  Node [] [("a.b", Node ["x"] []); ("a", Node [] [("b", Node ["y"] [])])].

(** A nested failure, as for [address.aa.zipCode]. *)
Definition nestedError : ZodError :=
  {| issues :=
       [{| path := [Key "address"; Key "aa"; Key "zipCode"];
           message := "zip" |}];
     format :=
       Node [] [("address",
                 Node [] [("aa", Node [] [("zipCode", Node ["zip"; "zip2"] [])])])] |}.

(** Root messages together with a failing field. *)
Definition refineError : ZodError :=
  {| issues :=
       [{| path := []; message := "mismatch" |};
        {| path := [Key "name"]; message := "required" |}];
     format := Node ["mismatch"] [("name", Node ["required"] [])] |}.


(** Root messages and no issue with a path. *)
Definition rootOnlyError : ZodError :=
  {| issues := [{| path := []; message := "mismatch" |}];
     format := Node ["mismatch"] [] |}.

(** The machine before any submission. *)
Definition idle (w : World string) : Machine :=
  {| world := w; invoked := [] |}.

Definition okHandler : Handler (Prim := string) :=
  fun _ w => (Normal tt, w).

Definition failHandler : Handler (Prim := string) :=
  fun _ w => (Throw (VPrim "boom"), w).

(** A handler that leaves a mark: it logs the object it was given. *)
Definition markHandler : Handler (Prim := string) :=
  fun values w => (Normal tt, consoleError "submitted" (VRef values) w).

(** The default values of the advanced page: nested objects, and an
    empty array under [interests]. *)
Definition advancedDefaults : Heap string :=
  {[ 1%positive :=
       {[ "fullName" := VPrim ""; "role" := VPrim "viewer";
          "paymentMethod" := VPrim "alipay"; "interests" := VRef 2%positive;
          "address" := VRef 3%positive; "creditCardNumber" := VPrim "";
          "birthDate" := VPrim "" ]};
     2%positive := ∅;
     3%positive :=
       {[ "street" := VPrim ""; "city" := VPrim "";
          "aa" := VRef 4%positive ]};
     4%positive := {[ "zipCode" := VPrim "" ]} ]}.

(** Default values that hold themselves, as after [d.self = d]. *)
Definition selfHeap : Heap string :=
  {[ 1%positive := {[ "name" := VPrim ""; "self" := VRef 1%positive ]} ]}.

Definition noNull : string -> bool := fun _ => false.

(** ** Worked examples *)

Example split_nested :
  Js.split "address.aa.zipCode" = ["address"; "aa"; "zipCode"].
Proof. reflexivity. Qed.

Example split_empty : Js.split "" = [""].
Proof. reflexivity. Qed.

Example split_trailing_dot : Js.split "a." = ["a"; ""].
Proof. reflexivity. Qed.

Example join_index : joinPath [Key "items"; Index 10; Key "name"] = "items.10.name".
Proof. reflexivity. Qed.

Example nested_path_is_compound :
  errors (snd (validate (constSchema (ParseFailure nestedError)) formAt
                 (worldOf emptyName ∅)))
  = {[ "address.aa.zipCode" := "zip" ]}.
Proof. vm_compute. reflexivity. Qed.

Example name_required :
  validate nameSchema formAt (worldOf emptyName {[ "stale" := "old" ]})
  = (false, worldOf emptyName {[ "name" := "required" ]}).
Proof. vm_compute. reflexivity. Qed.

Example name_given :
  validate nameSchema formAt (worldOf someName {[ "name" := "required" ]})
  = (true, worldOf someName ∅).
Proof. vm_compute. reflexivity. Qed.

Example root_message_dropped :
  errors (snd (validate (constSchema (ParseFailure rootOnlyError)) formAt
                 (worldOf emptyName ∅)))
  = ∅.
Proof. vm_compute. reflexivity. Qed.

Example field_error_set :
  validateField nameSchema formAt "name"
    (worldOf emptyName {[ "email" := "bad" ]})
  = (false, worldOf emptyName {[ "email" := "bad"; "name" := "required" ]}).
Proof. vm_compute. reflexivity. Qed.

Example field_error_removed :
  validateField nameSchema formAt "name"
    (worldOf someName {[ "email" := "bad"; "name" := "required" ]})
  = (true, worldOf someName {[ "email" := "bad" ]}).
Proof. vm_compute. reflexivity. Qed.

Example field_under_missing_key :
  validateField (constSchema (ParseFailure nestedError)) formAt
    "address.bb.zipCode" (worldOf emptyName {[ "address.bb.zipCode" := "old" ]})
  = (true, worldOf emptyName ∅).
Proof. vm_compute. reflexivity. Qed.

(** ** Clearing the map *)

Lemma fold_delete_lookup (keys : list string) (errs : ErrorMap) (i : string) :
  fold_left (fun acc key => delete key acc) keys errs !! i
  = if decide (i ∈ keys) then None else errs !! i.
Proof.
  revert errs. induction keys as [|k keys IH]; intros errs; simpl.
  - destruct (decide (i ∈ [])) as [Hin|_]; [by apply elem_of_nil in Hin | done].
  - rewrite IH.
    destruct (decide (i ∈ keys)) as [Hin|Hin];
      destruct (decide (i ∈ k :: keys)) as [Hin'|Hin']; try done.
    + exfalso. apply Hin'. by right.
    + apply elem_of_cons in Hin' as [->|?]; [|done].
      apply lookup_delete_eq.
    + apply lookup_delete_ne. intros ->. apply Hin'. by left.
Qed.

Lemma clearErrors_empty (errs : ErrorMap) : clearErrors errs = ∅.
Proof.
  apply map_eq. intros i. unfold clearErrors.
  rewrite fold_delete_lookup, lookup_empty.
  destruct (decide (i ∈ elements (dom errs))) as [|Hin]; [done|].
  destruct (errs !! i) as [m|] eqn:Hi; [|done].
  exfalso. apply Hin. apply elem_of_elements, elem_of_dom. by exists m.
Qed.

(** ** Full validation *)

Section ValidateFacts.
Context {Prim : Type} (schema : Schema Prim) (form : loc).

Lemma validate_success (w : World Prim) :
  safeParse schema (heap w) form = ParseSuccess ->
  validate schema form w = (true, setErrors ∅ w).
Proof.
  intros Hok. unfold validate. by rewrite Hok, clearErrors_empty.
Qed.

Lemma validate_failure (w : World Prim) (error : ZodError) :
  safeParse schema (heap w) form = ParseFailure error ->
  validate schema form w
  = (false,
     setErrors (placeRoot error (processErrors (format error) "" ∅)) w).
Proof.
  intros Hko. unfold validate. by rewrite Hko, clearErrors_empty.
Qed.

(** C7. [validate] drops every entry the map held before it fills the
    map from the new result: the entries it leaves are those it leaves
    when started on the empty map. It answers true exactly when
    [safeParse] succeeds, and the map is then empty; on a failure the
    map is the one the recursive walk builds from the formatted error
    on the empty map, with the root message placed. *)
Theorem validate_rebuilds_from_scratch (w : World Prim) :
  errors (snd (validate schema form w))
  = errors (snd (validate schema form (setErrors ∅ w)))
  /\ (fst (validate schema form w) = true
      <-> safeParse schema (heap w) form = ParseSuccess)
  /\ (fst (validate schema form w) = true
      -> errors (snd (validate schema form w)) = ∅)
  /\ (forall error,
        safeParse schema (heap w) form = ParseFailure error ->
        fst (validate schema form w) = false
        /\ errors (snd (validate schema form w))
           = placeRoot error (processErrors (format error) "" ∅)).
Proof.
  destruct (safeParse schema (heap w) form) as [|error] eqn:Hp.
  - rewrite (validate_success w Hp).
    rewrite (validate_success (setErrors ∅ w)) by exact Hp.
    simpl. by repeat split.
  - rewrite (validate_failure w error Hp).
    rewrite (validate_failure (setErrors ∅ w) error) by exact Hp.
    simpl. split; [done|]. split; [split; intros; discriminate|].
    split; [intros; discriminate|]. by intros error' [= <-].
Qed.

(** C8. A second [validate] on the unchanged form leaves the same map,
    indeed the same world, and answers as the first did. *)
Theorem validate_idempotent (w : World Prim) :
  let first := validate schema form w in
  let second := validate schema form (snd first) in
  errors (snd second) = errors (snd first)
  /\ fst second = fst first
  /\ snd second = snd first.
Proof.
  simpl.
  destruct (safeParse schema (heap w) form) as [|error] eqn:Hp.
  - rewrite (validate_success w Hp). simpl.
    rewrite (validate_success (setErrors ∅ w)) by exact Hp.
    by repeat split.
  - rewrite (validate_failure w error Hp). simpl.
    rewrite (validate_failure (setErrors _ w) error) by exact Hp.
    by repeat split.
Qed.

(** C9. Neither [validate] nor [validateField] writes to the form: the
    heap holding the form and the objects under it, the submission
    flag and the console are as before; only the error map changes. *)
Theorem validation_leaves_form (w : World Prim) (path : string) :
  (heap (snd (validate schema form w)) = heap w
   /\ isSubmitting (snd (validate schema form w)) = isSubmitting w
   /\ console (snd (validate schema form w)) = console w)
  /\ (heap (snd (validateField schema form path w)) = heap w
      /\ isSubmitting (snd (validateField schema form path w))
         = isSubmitting w
      /\ console (snd (validateField schema form path w)) = console w).
Proof.
  unfold validate, validateField.
  destruct (safeParse schema (heap w) form) as [|error]; simpl.
  - by repeat split.
  - destruct (descend _ _) as [[[|msg msgs] ch]|]; simpl; by repeat split.
Qed.
End ValidateFacts.

(** ** Validation of one field *)

Section FieldFacts.
Context {Prim : Type} (schema : Schema Prim) (form : loc).

(** C3. [validateField path] changes no entry of the error map other
    than the one at [path], whatever the outcome of the validation. *)
Theorem validateField_frame (w : World Prim) (path other : string) :
  other <> path ->
  errors (snd (validateField schema form path w)) !! other
  = errors w !! other.
Proof.
  intros Hne. unfold validateField.
  destruct (safeParse schema (heap w) form) as [|error]; simpl.
  - by apply lookup_delete_ne.
  - destruct (descend _ _) as [[[|msg msgs] ch]|]; simpl;
      first [by apply lookup_delete_ne | by apply lookup_insert_ne].
Qed.

Lemma descend_follows (t t' : FormattedError) (ks : list string) :
  follows t ks t' -> descend (Some t) ks = Some t'.
Proof.
  induction 1 as [t|t k c ks t' Hk _ IH]; simpl; [done|].
  by rewrite Hk.
Qed.

Lemma descend_absent (t : FormattedError) (ks : list string) :
  absentAt t ks -> descend (Some t) ks = None.
Proof.
  intros (ks1 & k & ks2 & n & -> & Hf & Hk).
  induction Hf as [t|t k' c ks t' Hk' _ IH]; simpl.
  - by rewrite Hk.
  - rewrite Hk'. by apply IH.
Qed.

Lemma follows_or_absent (t : FormattedError) (ks : list string) :
  absentAt t ks \/ exists t', follows t ks t'.
Proof.
  revert t. induction ks as [|k ks IH]; intros t.
  - right. exists t. constructor.
  - destruct (getProp k (entries t)) as [c|] eqn:Hk.
    + destruct (IH c) as [(ks1 & k' & ks2 & n & -> & Hf & Hn)|[t' Hf]].
      * left. exists (k :: ks1), k', ks2, n. split; [done|].
        split; [|done]. by apply (follows_down _ k c).
      * right. exists t'. by apply (follows_down _ k c).
    + left. exists [], k, ks, t. split; [done|]. split; [constructor|done].
Qed.

(** C5. [validateField path] splits [path] at the dots and follows
    the nested objects of the formatted error. When the validation
    succeeds, or a segment is absent at some depth, or the descent
    ends on a node without messages, the entry at [path] is deleted
    and the answer is true; when the descent ends on a node with
    messages, the entry at [path] becomes the first of them and the
    answer is false. *)
Theorem validateField_outcome (w : World Prim) (path : string) :
  let cleared := (true, setErrors (delete path (errors w)) w) in
  (safeParse schema (heap w) form = ParseSuccess ->
   validateField schema form path w = cleared)
  /\ (forall error,
        safeParse schema (heap w) form = ParseFailure error ->
        absentAt (format error) (Js.split path) ->
        validateField schema form path w = cleared)
  /\ (forall error ch,
        safeParse schema (heap w) form = ParseFailure error ->
        follows (format error) (Js.split path) (Node [] ch) ->
        validateField schema form path w = cleared)
  /\ (forall error msg msgs ch,
        safeParse schema (heap w) form = ParseFailure error ->
        follows (format error) (Js.split path) (Node (msg :: msgs) ch) ->
        validateField schema form path w
        = (false, setErrors (<[path := msg]> (errors w)) w)).
Proof.
  simpl. unfold validateField. repeat split.
  - by intros ->.
  - intros error -> Habs. by rewrite (descend_absent _ _ Habs).
  - intros error ch -> Hf. by rewrite (descend_follows _ _ _ Hf).
  - intros error msg msgs ch -> Hf. by rewrite (descend_follows _ _ _ Hf).
Qed.
End FieldFacts.

(** ** Placement of the root messages *)



Lemma find_none_with_path (l : list ZodIssue) :
  Forall (fun i => path i = []) l -> find hasPath l = None.
Proof.
  induction 1 as [|i l Hi _ IH]; simpl; [done|].
  unfold hasPath at 1. by rewrite Hi.
Qed.


Lemma placeRoot_dropped (error : ZodError) (errs : ErrorMap) :
  Forall (fun i => path i = []) (issues error) ->
  placeRoot error errs = errs.
Proof.
  intros Hall. unfold placeRoot.
  rewrite (find_none_with_path _ Hall). by destruct (messages _).
Qed.

Section RootFacts.
Context {Prim : Type} (schema : Schema Prim) (form : loc).


End RootFacts.

(** ** Submission *)

Section SubmitFacts.
Context {Prim : Type} (schema : Schema Prim) (form : loc).

Lemma validate_heap (w : World Prim) :
  heap (snd (validate schema form w)) = heap w.
Proof.
  unfold validate. by destruct (safeParse schema (heap w) form).
Qed.

Lemma validate_isSubmitting (w : World Prim) :
  isSubmitting (snd (validate schema form w)) = isSubmitting w.
Proof.
  unfold validate. by destruct (safeParse schema (heap w) form).
Qed.

Lemma handleSubmit_invalid (onSubmit : Handler) (m : Machine) :
  fst (validate schema form (world m)) = false ->
  handleSubmit schema form onSubmit m
  = (Normal tt,
     {| world := snd (validate schema form (world m));
        invoked := invoked m |}).
Proof.
  intros Hv. unfold handleSubmit, mbind, async_bind, run.
  destruct (validate schema form (world m)) as [isValid w1].
  simpl in Hv. by subst isValid.
Qed.

Lemma handleSubmit_valid (onSubmit : Handler) (m : Machine) :
  fst (validate schema form (world m)) = true ->
  handleSubmit schema form onSubmit m
  = let values := snapshotOf (world m) in
    let started := callWorld schema form (world m) in
    let calls := (invoked m ++ [(values, started)])%list in
    match onSubmit values started with
    | (Normal _, w') =>
        (Normal tt, {| world := setSubmitting false w'; invoked := calls |})
    | (Throw e, w') =>
        (Normal tt,
         {| world :=
              setSubmitting false
                (consoleError "Form submission error:" e w');
            invoked := calls |})
    end.
Proof.
  intros Hv. unfold callWorld, snapshotOf.
  pose proof (validate_heap (world m)) as Hh.
  unfold handleSubmit, mbind, async_bind, run.
  destruct (validate schema form (world m)) as [isValid w1].
  simpl in Hv, Hh. subst isValid. simpl.
  unfold tryCatchFinally, step, spread, awaitCall. simpl.
  rewrite Hh.
  destruct (onSubmit _ _) as [[[]|e] w']; reflexivity.
Qed.

(** C4. The action of [handleSubmit] does not call the handler when
    [validate] answers false: it ends in the world [validate] left,
    whatever the handler is, with [isSubmitting] as it was. When
    [validate] answers true it calls the handler once, on a new
    object that holds the own properties of the form while every
    object that was there before is as it was, and it ends in the
    world that call of the handler left, with the thrown value logged
    if it threw and [isSubmitting] reset. *)
Theorem handleSubmit_gates_handler (onSubmit : Handler) (m : Machine) :
  let after := snd (handleSubmit schema form onSubmit m) in
  (fst (validate schema form (world m)) = false ->
   invoked after = invoked m
   /\ isSubmitting (world after) = isSubmitting (world m)
   /\ world after = snd (validate schema form (world m)))
  /\ (fst (validate schema form (world m)) = true ->
      exists values started,
        invoked after = (invoked m ++ [(values, started)])%list
        /\ (values ∉ dom (heap (world m)))
        /\ (heap started !! values
            = Some (default ∅ (heap (world m) !! form)))
        /\ (forall l, l <> values ->
              heap started !! l = heap (world m) !! l)
        /\ isSubmitting started = true
        /\ console started = console (world m)
        /\ world after
           = setSubmitting false
               match onSubmit values started with
               | (Normal _, w') => w'
               | (Throw e, w') =>
                   consoleError "Form submission error:" e w'
               end).
Proof.
  simpl. split; intros Hv.
  - rewrite (handleSubmit_invalid onSubmit m Hv). simpl.
    split; [done|]. split; [|done]. apply validate_isSubmitting.
  - exists (snapshotOf (world m)), (callWorld schema form (world m)).
    rewrite (handleSubmit_valid onSubmit m Hv). simpl.
    split; [by destruct (onSubmit _ _) as [[[]|e] w']|].
    split; [unfold snapshotOf; apply is_fresh|].
    split; [unfold callWorld; simpl; apply lookup_insert_eq|].
    split.
    { intros l Hl. unfold callWorld. simpl. by apply lookup_insert_ne. }
    split; [done|]. split.
    { unfold callWorld, validate. simpl.
      by destruct (safeParse schema (heap (world m)) form). }
    by destruct (onSubmit _ _) as [[[]|e] w'].
Qed.

(** C6. The action never completes abruptly, whatever the handler
    does. Once the handler has been started, [isSubmitting] is false
    when the action ends, whether the handler returned or threw, and
    a thrown value is written to the console after all the handler
    wrote. *)
Theorem handleSubmit_swallows_failure (onSubmit : Handler) (m : Machine) :
  let after := snd (handleSubmit schema form onSubmit m) in
  fst (handleSubmit schema form onSubmit m) = Normal tt
  /\ (fst (validate schema form (world m)) = true ->
      isSubmitting (world after) = false
      /\ (forall e w',
            onSubmit (snapshotOf (world m)) (callWorld schema form (world m))
            = (Throw e, w') ->
            world after
            = setSubmitting false
                (consoleError "Form submission error:" e w'))).
Proof.
  simpl. split.
  - destruct (fst (validate schema form (world m))) eqn:Hv.
    + rewrite (handleSubmit_valid onSubmit m Hv). simpl.
      by destruct (onSubmit _ _) as [[[]|e] w'].
    + by rewrite (handleSubmit_invalid onSubmit m Hv).
  - intros Hv. rewrite (handleSubmit_valid onSubmit m Hv). simpl.
    split.
    + by destruct (onSubmit _ _) as [[[]|e] w'].
    + intros e w' ->. reflexivity.
Qed.
End SubmitFacts.

(** ** The recursive walk *)

(** *** Strings and dotted paths *)

Lemma app_cons_s (x : ascii) (a b : string) :
  String x a ++ b = String x (a ++ b).
Proof. reflexivity. Qed.

Lemma app_assoc_s (a b c : string) : (a ++ b) ++ c = a ++ (b ++ c).
Proof.
  induction a as [|x a IH]; [done|]. rewrite !app_cons_s. by rewrite IH.
Qed.

Lemma app_nil_s (a : string) : a ++ "" = a.
Proof.
  induction a as [|x a IH]; [done|]. rewrite app_cons_s. by rewrite IH.
Qed.

Lemma truthy_app (a b : string) : Js.truthy a = true -> Js.truthy (a ++ b) = true.
Proof. by destruct a. Qed.

Lemma newPath_truthy (parent key : string) :
  Js.truthy parent = true -> newPath parent key = parent ++ "." ++ key.
Proof. unfold newPath. by intros ->. Qed.

Lemma newPath_is_truthy (parent key : string) :
  Js.truthy parent || Js.truthy key = true ->
  Js.truthy (newPath parent key) = true.
Proof.
  unfold newPath. destruct (Js.truthy parent) eqn:Hp; simpl; [|done].
  intros _. by apply truthy_app.
Qed.

Lemma tailOk_dotted (ks : list string) : tailOk (dotted ks).
Proof. destruct ks; [by left | right; by eexists]. Qed.

Lemma pathFrom_truthy (parent : string) (ks : list string) :
  Js.truthy parent = true -> pathFrom parent ks = parent ++ dotted ks.
Proof.
  revert parent. induction ks as [|k ks IH]; intros parent Hp; simpl.
  - by rewrite app_nil_s.
  - unfold pathFrom in *. simpl. rewrite IH.
    + rewrite (newPath_truthy _ _ Hp). by rewrite !app_assoc_s.
    + apply newPath_is_truthy. by rewrite Hp.
Qed.

Lemma join_cons (k : string) (ks : list string) :
  Js.join (k :: ks) = k ++ dotted ks.
Proof.
  unfold Js.join. revert k. induction ks as [|k' ks IH]; intros k.
  - simpl. by rewrite app_nil_s.
  - change (String.concat "." (k :: k' :: ks))
      with (k ++ "." ++ String.concat "." (k' :: ks)).
    by rewrite IH.
Qed.

Lemma pathFrom_root (k : string) (ks : list string) :
  Js.truthy k = true -> pathFrom "" (k :: ks) = Js.join (k :: ks).
Proof.
  intros Hk. rewrite join_cons. unfold pathFrom. simpl.
  by apply (pathFrom_truthy k ks).
Qed.

Lemma below_pathFrom (parent : string) (ks : list string) :
  Js.truthy parent = true -> below parent (pathFrom parent ks).
Proof.
  intros Hp. exists (dotted ks). split; [by apply pathFrom_truthy|].
  apply tailOk_dotted.
Qed.

Lemma below_child (parent key p : string) :
  Js.truthy parent = true -> below (newPath parent key) p -> below parent p.
Proof.
  intros Hp (r & -> & _). rewrite (newPath_truthy _ _ Hp).
  exists ("." ++ key ++ r). split.
  - by rewrite !app_assoc_s.
  - right. by eexists.
Qed.

Lemma not_below_self (parent key : string) :
  Js.truthy parent = true -> ~ below (newPath parent key) parent.
Proof.
  intros Hp (r & Hr & _). rewrite (newPath_truthy _ _ Hp) in Hr.
  rewrite !app_assoc_s in Hr. rewrite <- (app_nil_s parent) in Hr at 1.
  apply (inj (String.app parent)) in Hr. discriminate.
Qed.

Lemma plain_prefix_unique (k k' r r' : string) :
  hasDot k = false -> hasDot k' = false ->
  tailOk r -> tailOk r' ->
  k ++ r = k' ++ r' -> k = k'.
Proof.
  revert k'. induction k as [|c k IH]; intros [|c' k'] Hk Hk' Hr Hr' Heq;
    simpl in *.
  - done.
  - exfalso. apply orb_false_iff in Hk' as [Hc' _].
    destruct Hr as [->|[r0 ->]]; [discriminate|].
    simpl in Heq. injection Heq as <- _. by rewrite Ascii.eqb_refl in Hc'.
  - exfalso. apply orb_false_iff in Hk as [Hc _].
    destruct Hr' as [->|[r0 ->]]; [discriminate|].
    simpl in Heq. injection Heq as -> _. by rewrite Ascii.eqb_refl in Hc.
  - apply orb_false_iff in Hk as [_ Hk]. apply orb_false_iff in Hk' as [_ Hk'].
    injection Heq as -> Heq. f_equal. by apply (IH k').
Qed.

Lemma siblings_apart (parent k k' p : string) :
  hasDot k = false -> hasDot k' = false ->
  below (newPath parent k) p -> below (newPath parent k') p -> k = k'.
Proof.
  intros Hk Hk' (r & -> & Hr) (r' & Heq & Hr').
  unfold newPath in Heq. destruct (Js.truthy parent).
  - rewrite !app_assoc_s in Heq. apply (inj (String.app parent)) in Heq.
    simpl in Heq. injection Heq as Heq.
    by apply (plain_prefix_unique k k' r r').
  - by apply (plain_prefix_unique k k' r r').
Qed.

(** *** Induction on formatted errors *)

Lemma FormattedError_ind (P : FormattedError -> Prop) :
  (forall ms ch, Forall (fun kv => P (snd kv)) ch -> P (Node ms ch)) ->
  forall t, P t.
Proof.
  intros Hnode. fix IH 1. intros [ms ch]. apply Hnode.
  induction ch as [|[k c] ch IHch]; constructor; [apply IH | exact IHch].
Qed.

Lemma processErrors_node (ms : list string)
    (ch : list (string * FormattedError)) (parent : string) (errs : ErrorMap) :
  processErrors (Node ms ch) parent errs
  = fold_left (walkStep parent) ch (recordHere ms parent errs).
Proof. reflexivity. Qed.

Lemma below_refl (p : string) : below p p.
Proof. exists "". split; [by rewrite app_nil_s | by left]. Qed.

Lemma recordHere_frame (ms : list string) (parent p : string) (errs : ErrorMap) :
  ~ below parent p -> recordHere ms parent errs !! p = errs !! p.
Proof.
  intros Hp. unfold recordHere. destruct ms as [|msg ms]; [done|].
  destruct (Js.truthy parent); [|done].
  apply lookup_insert_ne. intros ->. apply Hp, below_refl.
Qed.

(** *** The walk writes only under its own path *)

Lemma walk_frame (t : FormattedError) :
  forall (parent : string) (errs : ErrorMap) (p : string),
    Js.truthy parent = true ->
    ~ below parent p ->
    processErrors t parent errs !! p = errs !! p.
Proof.
  induction t as [ms ch IH] using FormattedError_ind.
  intros parent errs p Hparent Hp. rewrite processErrors_node.
  rewrite <- (recordHere_frame ms parent p errs Hp).
  generalize (recordHere ms parent errs). clear errs.
  induction IH as [|[k c] ch IHc _ IHch]; intros acc; simpl; [done|].
  rewrite IHch. unfold walkStep. simpl.
  destruct (String.eqb k "_errors"); [done|].
  apply IHc.
  - apply newPath_is_truthy. by rewrite Hparent.
  - intros Hb. apply Hp. by apply (below_child parent k).
Qed.

Lemma fold_walk_frame (parent p : string)
    (l : list (string * FormattedError)) (acc : ErrorMap) :
  Forall (fun kv => Js.truthy (newPath parent (fst kv)) = true
                    /\ ~ below (newPath parent (fst kv)) p) l ->
  fold_left (walkStep parent) l acc !! p = acc !! p.
Proof.
  intros Hl. revert acc.
  induction Hl as [|[k c] l [Ht Hb] _ IH]; intros acc; simpl; [done|].
  rewrite IH. unfold walkStep. simpl.
  destruct (String.eqb k "_errors"); [done|].
  by apply walk_frame.
Qed.

(** *** Properties of an object *)

Lemma distinct_NoDup (ks : list string) : distinct ks = true -> NoDup ks.
Proof.
  induction ks as [|k ks IH]; simpl; [constructor|].
  intros [Hk Hks]%andb_true_iff. constructor; [|by apply IH].
  intros Hin. apply negb_true_iff in Hk.
  assert (existsb (String.eqb k) ks = true) as Hex; [|congruence].
  apply existsb_exists. exists k. split.
  - by apply list_elem_of_In.
  - apply String.eqb_refl.
Qed.

Lemma getProp_split (k : string) (ch : list (string * FormattedError))
    (c : FormattedError) :
  getProp k ch = Some c ->
  exists l1 l2, ch = (l1 ++ (k, c) :: l2)%list.
Proof.
  induction ch as [|[k' c'] ch IH]; simpl; [done|].
  destruct (String.eqb_spec k' k) as [->|Hne].
  - intros [= ->]. by exists [], ch.
  - intros (l1 & l2 & ->)%IH. by exists ((k', c') :: l1), l2.
Qed.

Lemma getProp_elem (k : string) (ch : list (string * FormattedError))
    (c : FormattedError) :
  NoDup (map fst ch) -> (k, c) ∈ ch -> getProp k ch = Some c.
Proof.
  induction ch as [|[k' c'] ch IH]; simpl; intros Hnd Hin.
  - by apply elem_of_nil in Hin.
  - apply NoDup_cons in Hnd as [Hk' Hnd].
    apply elem_of_cons in Hin as [[= -> ->]|Hin].
    + by rewrite String.eqb_refl.
    + destruct (String.eqb_spec k' k) as [->|Hne]; [|by apply IH].
      exfalso. apply Hk'. apply list_elem_of_In, in_map_iff.
      exists (k, c). split; [done|]. by apply list_elem_of_In.
Qed.

Lemma isObject_node (ms : list string) (ch : list (string * FormattedError)) :
  isObject (Node ms ch) = true ->
  NoDup (map fst ch)
  /\ Forall (fun kv => fst kv <> "_errors" /\ isObject (snd kv) = true) ch.
Proof.
  simpl. intros [Hd Hall]%andb_true_iff. split; [by apply distinct_NoDup|].
  apply Forall_forall. intros kv Hin.
  rewrite forallb_forall in Hall.
  apply list_elem_of_In, Hall, andb_true_iff in Hin as [Hk Hc].
  split; [|done]. by apply String.eqb_neq, negb_true_iff.
Qed.

Lemma plainKeys_node (ms : list string) (ch : list (string * FormattedError)) :
  plainKeys (Node ms ch) = true ->
  Forall (fun kv => (Js.truthy (fst kv) = true /\ hasDot (fst kv) = false)
                    /\ plainKeys (snd kv) = true) ch.
Proof.
  simpl. intros Hall. apply Forall_forall. intros kv Hin.
  rewrite forallb_forall in Hall.
  apply list_elem_of_In, Hall, andb_true_iff in Hin as [Hk Hc].
  split; [|done]. unfold plainKey in Hk.
  apply andb_true_iff in Hk as [? ?%negb_true_iff]. done.
Qed.

(** *** Every node with a message is recorded at its own path *)

Lemma walk_records (t : FormattedError) :
  isObject t = true -> plainKeys t = true ->
  forall (ks : list string) (parent : string) (errs : ErrorMap)
         (msg : string) (msgs : list string)
         (ch' : list (string * FormattedError)),
    Js.truthy (pathFrom parent ks) = true ->
    follows t ks (Node (msg :: msgs) ch') ->
    processErrors t parent errs !! pathFrom parent ks = Some msg.
Proof.
  induction t as [ms ch IH] using FormattedError_ind.
  intros Hobj Hplain ks parent errs msg msgs ch' Htruthy Hf.
  apply isObject_node in Hobj as [Hnd Hobj].
  apply plainKeys_node in Hplain.
  rewrite processErrors_node.
  inversion Hf as [t0 Ht0|t0 k c ks' t' Hk Hc]; subst.
  - (* the node itself *)
    unfold pathFrom in *. simpl in *.
    rewrite fold_walk_frame.
    + rewrite Htruthy. apply lookup_insert_eq.
    + apply Forall_forall. intros [k c] _. simpl. split.
      * apply newPath_is_truthy. by rewrite Htruthy.
      * by apply not_below_self.
  - (* a node under the child at [k] *)
    simpl in Hk. destruct (getProp_split _ _ _ Hk) as (l1 & l2 & ->).
    rewrite fold_left_app. simpl.
    rewrite Forall_app, Forall_cons in IH, Hobj, Hplain.
    destruct IH as (_ & IHc & _).
    destruct Hobj as (_ & [Hkerr Hcobj] & _).
    destruct Hplain as (_ & [[Hktruthy Hkdot] Hcplain] & Hplain2).
    simpl in *.
    assert (Js.truthy (newPath parent k) = true) as Hpk.
    { apply newPath_is_truthy. rewrite Hktruthy. apply orb_true_r. }
    change (pathFrom parent (k :: ks')) with (pathFrom (newPath parent k) ks')
      in *.
    rewrite fold_walk_frame.
    + unfold walkStep at 1. simpl.
      apply String.eqb_neq in Hkerr as ->.
      by apply (IHc Hcobj Hcplain ks' _ _ msg msgs ch').
    + apply Forall_forall. intros [k2 c2] Hin2. simpl.
      rewrite Forall_forall in Hplain2.
      destruct (Hplain2 _ Hin2) as [[Hk2truthy Hk2dot] _]. simpl in *.
      split.
      * apply newPath_is_truthy. rewrite Hk2truthy. apply orb_true_r.
      * intros Hb.
        assert (k = k2) as <-.
        { apply (siblings_apart parent k k2 (pathFrom (newPath parent k) ks'));
            try done.
          by apply below_pathFrom. }
        rewrite map_app in Hnd. simpl in Hnd.
        apply NoDup_app in Hnd as (_ & _ & Hnd).
        apply NoDup_cons in Hnd as [Hnotin _].
        apply Hnotin. apply list_elem_of_In, in_map_iff.
        exists (k, c2). split; [done|]. by apply list_elem_of_In.
Qed.

(** *** Every entry comes from a node with a message *)

Lemma walk_sound (t : FormattedError) :
  isObject t = true ->
  forall (parent : string) (errs : ErrorMap) (p m : string),
    processErrors t parent errs !! p = Some m ->
    errs !! p = Some m
    \/ exists ks msgs ch',
         follows t ks (Node (m :: msgs) ch')
         /\ p = pathFrom parent ks
         /\ Js.truthy p = true.
Proof.
  induction t as [ms ch IH] using FormattedError_ind.
  intros Hobj parent errs p m.
  apply isObject_node in Hobj as [Hnd Hobj].
  rewrite processErrors_node.
  assert (forall l acc,
            (forall kv, kv ∈ l -> kv ∈ ch) ->
            fold_left (walkStep parent) l acc !! p = Some m ->
            acc !! p = Some m
            \/ exists ks msgs ch',
                 follows (Node ms ch) ks (Node (m :: msgs) ch')
                 /\ p = pathFrom parent ks
                 /\ Js.truthy p = true) as Hfold.
  { induction l as [|[k c] l IHl]; intros acc Hsub; simpl; [by left|].
    intros Hl. apply IHl in Hl as [Hstep|Hfound].
    - unfold walkStep in Hstep. simpl in Hstep.
      destruct (String.eqb k "_errors"); [by left|].
      assert ((k, c) ∈ ch) as Hin by (apply Hsub; by left).
      rewrite Forall_forall in IH, Hobj.
      destruct (Hobj _ Hin) as [_ Hcobj].
      apply (IH _ Hin Hcobj) in Hstep
        as [Hacc|(ks & msgs & ch' & Hf & -> & Htruthy)]; [by left|].
      right. exists (k :: ks), msgs, ch'. split; [|done].
      apply (follows_down _ k c); [|done].
      simpl. by apply getProp_elem.
    - by right.
    - intros kv Hkv. apply Hsub. by right. }
  intros Hwalk. apply Hfold in Hwalk as [Hhere|Hfound]; [|by right|done].
  unfold recordHere in Hhere. destruct ms as [|msg msgs]; [by left|].
  destruct (Js.truthy parent) eqn:Hparent; [|by left].
  destruct (decide (parent = p)) as [<-|Hne].
  - rewrite lookup_insert_eq in Hhere. injection Hhere as ->.
    right. exists [], msgs, ch. split; [constructor|done].
  - rewrite lookup_insert_ne in Hhere by done. by left.
Qed.

Lemma follows_first_key (t t' : FormattedError) (k : string)
    (ks : list string) :
  plainKeys t = true -> follows t (k :: ks) t' -> Js.truthy k = true.
Proof.
  intros Hplain Hf. inversion Hf as [|t0 k0 c ks0 t0' Hk _]; subst.
  destruct t as [ms ch]. apply plainKeys_node in Hplain.
  simpl in Hk. destruct (getProp_split _ _ _ Hk) as (l1 & l2 & ->).
  rewrite Forall_app, Forall_cons in Hplain.
  by destruct Hplain as (_ & [[? _] _] & _).
Qed.

(** ** The first-wins law *)

(** C1, as stated for every tree, fails where two nested fields have
    the same dotted path: in [collide] the node under the key [a.b]
    has first message [x], and the entry at [a.b] is [y], the message
    of the node [b] under [a], which the walk visits later. *)
Lemma firstWins_fails_on_collision : ~ firstWins collide.
Proof.
  intros Hlaw.
  assert (follows collide ["a.b"] (Node ["x"] [])) as Hf.
  { apply (follows_down _ "a.b" (Node ["x"] [])); [reflexivity|constructor]. }
  apply Hlaw in Hf; [|done].
  vm_compute in Hf. discriminate.
Qed.

Lemma walk_entries (t : FormattedError) :
  isObject t = true ->
  plainKeys t = true ->
  forall p m,
    processErrors t "" ∅ !! p = Some m
    <-> exists ks msgs ch,
          ks <> [] /\ p = Js.join ks /\ follows t ks (Node (m :: msgs) ch).
Proof.
  intros Hobj Hplain p m. split.
  - intros Hwalk.
    apply (walk_sound t Hobj) in Hwalk
      as [Hempty|(ks & msgs & ch & Hf & -> & Htruthy)].
    { by rewrite lookup_empty in Hempty. }
    exists ks, msgs, ch. destruct ks as [|k ks]; [done|].
    split; [done|]. split; [|done].
    apply pathFrom_root. by apply (follows_first_key t _ k ks Hplain Hf).
  - intros (ks & msgs & ch & Hks & -> & Hf).
    destruct ks as [|k ks]; [done|].
    pose proof (follows_first_key t _ k ks Hplain Hf) as Hk.
    rewrite <- (pathFrom_root k ks Hk).
    apply (walk_records t Hobj Hplain (k :: ks) "" ∅ m msgs ch); [|done].
    rewrite (pathFrom_root k ks Hk), join_cons. by apply truthy_app.
Qed.

Section FirstWins.
Context {Prim : Type} (schema : Schema Prim) (form : loc).

(** C1, amended. After a failed validation whose formatted error has
    no empty key and no key with a dot, the recursive walk of
    [validate] leaves exactly the entries of the nodes below the root
    that have messages: the walk's map holds [m] at [p] if and only if
    [p] is the dot-joined path of such a node and [m] is the first
    message of that node. When the root has no messages this map is
    the error map [validate] ends with. *)
Theorem validate_first_wins (w : World Prim) (error : ZodError) :
  safeParse schema (heap w) form = ParseFailure error ->
  isObject (format error) = true ->
  plainKeys (format error) = true ->
  let walked := processErrors (format error) "" ∅ in
  (forall p m,
      walked !! p = Some m
      <-> exists ks msgs ch,
            ks <> [] /\ p = Js.join ks
            /\ follows (format error) ks (Node (m :: msgs) ch))
  /\ (messages (format error) = [] ->
      errors (snd (validate schema form w)) = walked).
Proof.
  intros Hp Hobj Hplain. simpl. split.
  - by apply walk_entries.
  - intros Hroot. rewrite (validate_failure schema form w error Hp). simpl.
    unfold placeRoot. by rewrite Hroot.
Qed.
End FirstWins.

(** The law also fails at an empty key: its node has the empty string
    for path, which the walk takes for the root. *)
Lemma firstWins_fails_on_empty_key : ~ firstWins (Node [] [("", Node ["x"] [])]).
Proof.
  intros Hlaw.
  assert (follows (Node [] [("", Node ["x"] [])]) [""] (Node ["x"] [])) as Hf.
  { apply (follows_down _ "" (Node ["x"] [])); [reflexivity|constructor]. }
  apply Hlaw in Hf; [|done].
  vm_compute in Hf. discriminate.
Qed.

(** ** The statements at the sample forms *)

Lemma validate_first_wins_at_nested :
  errors (snd (validate (constSchema (ParseFailure nestedError)) formAt
                 (worldOf emptyName {[ "stale" := "old" ]})))
  !! "address.aa.zipCode" = Some "zip".
Proof.
  destruct (validate_first_wins (constSchema (ParseFailure nestedError)) formAt
              (worldOf emptyName {[ "stale" := "old" ]}) nestedError
              eq_refl eq_refl eq_refl) as [Hwalk Hfinal].
  rewrite Hfinal by reflexivity. apply Hwalk.
  exists ["address"; "aa"; "zipCode"], ["zip2"], [].
  split; [discriminate|]. split; [reflexivity|].
  repeat (eapply follows_down; [reflexivity|]). apply follows_here.
Defined.


Lemma validateField_frame_at_name :
  errors (snd (validateField nameSchema formAt "name"
                 (worldOf emptyName {[ "email" := "bad" ]})))
  !! "email" = Some "bad".
Proof.
  rewrite (validateField_frame nameSchema formAt
             (worldOf emptyName {[ "email" := "bad" ]}) "name" "email").
  - vm_compute. reflexivity.
  - discriminate.
Defined.

Lemma handleSubmit_gates_handler_at_name :
  (invoked (snd (handleSubmit nameSchema formAt markHandler
                   (idle (worldOf emptyName ∅)))) = []
   /\ isSubmitting (world (snd (handleSubmit nameSchema formAt markHandler
                                  (idle (worldOf emptyName ∅))))) = false
   /\ console (world (snd (handleSubmit nameSchema formAt markHandler
                             (idle (worldOf emptyName ∅))))) = [])
  /\ exists values started,
       invoked (snd (handleSubmit nameSchema formAt markHandler
                       (idle (worldOf someName ∅))))
       = [(values, started)]
       /\ values <> formAt
       /\ heap started !! values = Some someName
       /\ console (world (snd (handleSubmit nameSchema formAt markHandler
                                 (idle (worldOf someName ∅)))))
          = [("submitted", VRef values)].
Proof.
  split.
  - destruct (proj1 (handleSubmit_gates_handler nameSchema formAt markHandler
                       (idle (worldOf emptyName ∅))))
      as (Hcalls & Hflag & Hworld).
    { vm_compute. reflexivity. }
    split; [exact Hcalls|]. split; [exact Hflag|].
    rewrite Hworld. vm_compute. reflexivity.
  - destruct (proj2 (handleSubmit_gates_handler nameSchema formAt markHandler
                       (idle (worldOf someName ∅))))
      as (values & started & Hcalls & Hfresh & Hprops & _ & _ & Hconsole
          & Hworld).
    { vm_compute. reflexivity. }
    exists values, started. split; [exact Hcalls|]. split.
    { intros ->. apply Hfresh. vm_compute. reflexivity. }
    split.
    { rewrite Hprops. vm_compute. reflexivity. }
    rewrite Hworld. unfold markHandler. simpl. rewrite Hconsole.
    reflexivity.
Defined.

Lemma validateField_outcome_at_nested :
  validateField (constSchema (ParseFailure nestedError)) formAt
    "address.aa.zipCode" (worldOf emptyName ∅)
  = (false, worldOf emptyName {[ "address.aa.zipCode" := "zip" ]}).
Proof.
  rewrite (proj2 (proj2 (proj2 (validateField_outcome
             (constSchema (ParseFailure nestedError)) formAt
             (worldOf emptyName ∅) "address.aa.zipCode")))
             nestedError "zip" ["zip2"] [] eq_refl).
  - vm_compute. reflexivity.
  - repeat (eapply follows_down; [reflexivity|]). apply follows_here.
Defined.

Lemma handleSubmit_swallows_failure_at_name :
  fst (handleSubmit nameSchema formAt failHandler (idle (worldOf someName ∅)))
  = Normal tt
  /\ isSubmitting (world (snd (handleSubmit nameSchema formAt failHandler
                                 (idle (worldOf someName ∅))))) = false
  /\ console (world (snd (handleSubmit nameSchema formAt failHandler
                            (idle (worldOf someName ∅)))))
     = [("Form submission error:", VPrim "boom")].
Proof.
  destruct (handleSubmit_swallows_failure nameSchema formAt failHandler
              (idle (worldOf someName ∅))) as [Hnormal Hvalid].
  split; [exact Hnormal|].
  destruct Hvalid as [Hflag Hlog]; [vm_compute; reflexivity|].
  split; [exact Hflag|].
  rewrite (Hlog (VPrim "boom")
             (callWorld nameSchema formAt (worldOf someName ∅)) eq_refl).
  reflexivity.
Defined.

Lemma validate_rebuilds_from_scratch_at_name :
  errors (snd (validate nameSchema formAt
                 (worldOf someName {[ "name" := "required" ]}))) = ∅
  /\ (fst (validate nameSchema formAt
             (worldOf emptyName {[ "stale" := "old"; "name" := "older" ]}))
      = false
      /\ errors (snd (validate nameSchema formAt
                        (worldOf emptyName
                           {[ "stale" := "old"; "name" := "older" ]})))
         = {[ "name" := "required" ]})
  /\ errors (snd (validate (constSchema (ParseFailure refineError)) formAt
                    (worldOf emptyName {[ "stale" := "old" ]})))
     = {[ "name" := "mismatch" ]}.
Proof.
  split.
  { apply (proj1 (proj2 (proj2 (validate_rebuilds_from_scratch nameSchema
                                  formAt
                                  (worldOf someName
                                     {[ "name" := "required" ]}))))).
    vm_compute. reflexivity. }
  split.
  - destruct (proj2 (proj2 (proj2 (validate_rebuilds_from_scratch nameSchema
               formAt
               (worldOf emptyName {[ "stale" := "old"; "name" := "older" ]}))))
               {| issues := [{| path := [Key "name"]; message := "required" |}];
                  format := Node [] [("name", Node ["required"] [])] |})
      as [Hanswer Hmap].
    { vm_compute. reflexivity. }
    split; [exact Hanswer|]. rewrite Hmap. vm_compute. reflexivity.
  - destruct (proj2 (proj2 (proj2 (validate_rebuilds_from_scratch
               (constSchema (ParseFailure refineError)) formAt
               (worldOf emptyName {[ "stale" := "old" ]}))))
               refineError eq_refl) as [_ Hmap].
    rewrite Hmap. vm_compute. reflexivity.
Defined.


(** ** Further properties of the walk *)

Lemma recordHere_union (ms : list string) (parent : string) (errs : ErrorMap) :
  recordHere ms parent errs = recordHere ms parent ∅ ∪ errs.
Proof.
  unfold recordHere. destruct ms as [|msg ms].
  - by rewrite (left_id_L ∅ (∪)).
  - destruct (Js.truthy parent).
    + by rewrite insert_empty, insert_union_singleton_l.
    + by rewrite (left_id_L ∅ (∪)).
Qed.

Lemma walk_union (t : FormattedError) :
  forall (parent : string) (errs : ErrorMap),
    processErrors t parent errs = processErrors t parent ∅ ∪ errs.
Proof.
  induction t as [ms ch IH] using FormattedError_ind.
  intros parent errs. rewrite !processErrors_node.
  rewrite (recordHere_union ms parent errs).
  generalize (recordHere ms parent ∅). intros acc. revert acc.
  induction IH as [|[k c] ch IHc _ IHch]; intros acc; simpl; [done|].
  unfold walkStep at 2 4. simpl.
  destruct (String.eqb k "_errors"); [by apply IHch|].
  rewrite (IHc _ (acc ∪ errs)), (IHc _ acc).
  rewrite (assoc_L (∪)). by apply IHch.
Qed.

(** X1. The walk only adds and overwrites: started on a map [errs] it ends
    with the entries it leaves from the empty map, laid over [errs];
    no entry of [errs] is lost. *)
Theorem walk_lays_over (t : FormattedError) (parent : string)
    (errs : ErrorMap) :
  processErrors t parent errs = processErrors t parent ∅ ∪ errs
  /\ dom errs ⊆ dom (processErrors t parent errs).
Proof.
  split; [by apply walk_union|].
  rewrite (walk_union t parent errs), dom_union_L. set_solver.
Qed.

(** X2. The walk never writes under the empty path: an entry at [""] is
    the one that was there before. *)
Theorem walk_never_writes_empty_path (t : FormattedError) :
  forall (parent : string) (errs : ErrorMap),
    processErrors t parent errs !! "" = errs !! "".
Proof.
  induction t as [ms ch IH] using FormattedError_ind.
  intros parent errs. rewrite processErrors_node.
  assert (recordHere ms parent errs !! "" = errs !! "") as <-.
  { unfold recordHere. destruct ms as [|msg ms]; [done|].
    destruct parent as [|c parent]; [done|]. simpl.
    by apply lookup_insert_ne. }
  generalize (recordHere ms parent errs). intros acc. revert acc.
  induction IH as [|[k c] ch IHc _ IHch]; intros acc; simpl; [done|].
  rewrite IHch. unfold walkStep. simpl.
  destruct (String.eqb k "_errors"); [done|]. apply IHc.
Qed.

Section MessageFacts.
Context {Prim : Type} (schema : Schema Prim) (form : loc).

(** X3. Every message [validate] leaves in the error map is the first
    message of a node of the formatted error, the root included. *)
Theorem validate_messages_from_tree (w : World Prim) (error : ZodError)
    (p m : string) :
  safeParse schema (heap w) form = ParseFailure error ->
  isObject (format error) = true ->
  errors (snd (validate schema form w)) !! p = Some m ->
  exists ks msgs ch, follows (format error) ks (Node (m :: msgs) ch).
Proof.
  intros Hp Hobj. rewrite (validate_failure schema form w error Hp). simpl.
  assert (forall q, processErrors (format error) "" ∅ !! q = Some m ->
            exists ks msgs ch, follows (format error) ks (Node (m :: msgs) ch))
    as Hwalk.
  { intros q Hq. apply (walk_sound _ Hobj) in Hq
      as [Hq|(ks & msgs & ch & Hf & _)]; [by rewrite lookup_empty in Hq|].
    by exists ks, msgs, ch. }
  unfold placeRoot.
  destruct (format error) as [[|msg msgs] ch] eqn:Ht; simpl; [by apply Hwalk|].
  destruct (find hasPath (issues error)) as [issue|]; [|by apply Hwalk].
  destruct (hasPath issue); [|by apply Hwalk].
  destruct (decide (joinPath (path issue) = p)) as [<-|Hne].
  - rewrite lookup_insert_eq. intros [= <-]. exists [], msgs, ch. constructor.
  - rewrite lookup_insert_ne by done. by apply Hwalk.
Qed.

(** X4. A failure whose formatted error has root messages only, with no
    issue that has a path, is answered false with an empty error map:
    the form is refused and no message is recorded. *)
Theorem validate_fails_without_entries (w : World Prim) (error : ZodError) :
  safeParse schema (heap w) form = ParseFailure error ->
  entries (format error) = [] ->
  Forall (fun i => path i = []) (issues error) ->
  validate schema form w = (false, setErrors ∅ w).
Proof.
  intros Hp Hch Hall. rewrite (validate_failure schema form w error Hp).
  rewrite (placeRoot_dropped error _ Hall).
  destruct (format error) as [ms ch]. simpl in Hch. subst ch.
  rewrite processErrors_node. simpl. unfold recordHere.
  by destruct ms.
Qed.
End MessageFacts.

(** ** Paths written by [validate] and paths read by [validateField] *)

Lemma split_nonempty (s : string) : Js.split s <> [].
Proof.
  induction s as [|c s IH]; simpl; [done|].
  destruct (Ascii.eqb c Js.dot); [done|]. by destruct (Js.split s).
Qed.

Lemma join_split (p : string) : Js.join (Js.split p) = p.
Proof.
  induction p as [|c p IH]; [done|]. simpl.
  pose proof (split_nonempty p) as Hne.
  destruct (Js.split p) as [|seg segs]; [done|].
  rewrite join_cons in IH.
  destruct (Ascii.eqb_spec c Js.dot) as [->|Hc].
  - rewrite join_cons. simpl dotted. by rewrite IH.
  - rewrite join_cons, app_cons_s. by rewrite IH.
Qed.

Lemma split_plain_end (k : string) :
  hasDot k = false -> Js.split k = [k].
Proof.
  induction k as [|c k IH]; [done|]. simpl.
  intros [Hc Hk]%orb_false_iff. rewrite Hc. by rewrite (IH Hk).
Qed.

Lemma split_plain_dot (k r : string) :
  hasDot k = false -> Js.split (k ++ "." ++ r) = k :: Js.split r.
Proof.
  induction k as [|c k IH]; [done|].
  intros [Hc Hk]%orb_false_iff. rewrite app_cons_s.
  change (Js.split (String c (k ++ "." ++ r)))
    with (if Ascii.eqb c Js.dot then EmptyString :: Js.split (k ++ "." ++ r)
          else match Js.split (k ++ "." ++ r) with
               | [] => [String c EmptyString]
               | seg :: segs => String c seg :: segs
               end).
  rewrite Hc. by rewrite (IH Hk).
Qed.

Lemma split_join (k : string) (ks : list string) :
  Forall (fun k => hasDot k = false) (k :: ks) ->
  Js.split (Js.join (k :: ks)) = k :: ks.
Proof.
  revert k. induction ks as [|k' ks IH]; intros k Hall.
  - rewrite join_cons. simpl dotted. rewrite app_nil_s.
    apply split_plain_end. by apply Forall_cons in Hall as [? _].
  - apply Forall_cons in Hall as [Hk Hall].
    rewrite join_cons.
    change (dotted (k' :: ks)) with ("." ++ (k' ++ dotted ks)).
    rewrite (split_plain_dot _ _ Hk). rewrite <- join_cons.
    by rewrite (IH k' Hall).
Qed.

(** X5. The dotted path the walk builds for a chain of keys splits back
    into that chain, when no key is empty or holds a dot: the path
    [validate] records for a field is read by [validateField] as the
    keys of that field. *)
Theorem split_pathFrom_roundtrip (ks : list string) :
  ks <> [] ->
  Forall (fun k => plainKey k = true) ks ->
  Js.split (pathFrom "" ks) = ks.
Proof.
  intros Hne Hall. destruct ks as [|k ks]; [done|].
  assert (Forall (fun k => hasDot k = false) (k :: ks)) as Hdots.
  { eapply Forall_impl; [exact Hall|]. intros k' Hk'. simpl in Hk'.
    unfold plainKey in Hk'. by apply andb_true_iff in Hk' as [_ ?%negb_true_iff]. }
  apply Forall_cons in Hall as [Hk _]. unfold plainKey in Hk.
  apply andb_true_iff in Hk as [Hk _].
  rewrite (pathFrom_root k ks Hk). by apply split_join.
Qed.

Lemma descend_Some_follows (ks : list string) :
  forall t t', descend (Some t) ks = Some t' -> follows t ks t'.
Proof.
  induction ks as [|k ks IH]; intros t t'; simpl.
  - intros [= ->]. constructor.
  - destruct (getProp k (entries t)) as [c|] eqn:Hk; [|done].
    intros Hd. apply (follows_down _ k c); [done|]. by apply IH.
Qed.

Lemma follows_keys_plain (t t' : FormattedError) (ks : list string) :
  plainKeys t = true -> follows t ks t' ->
  Forall (fun k => hasDot k = false) ks.
Proof.
  intros Hplain Hf. induction Hf as [t|t k c ks t' Hk _ IH]; [constructor|].
  destruct t as [ms ch]. apply plainKeys_node in Hplain.
  simpl in Hk. destruct (getProp_split _ _ _ Hk) as (l1 & l2 & ->).
  rewrite Forall_app, Forall_cons in Hplain.
  destruct Hplain as (_ & [[_ Hdot] Hc] & _). simpl in *.
  constructor; [done|]. by apply IH.
Qed.

Lemma walk_lookup_descend (t : FormattedError) (p : string) :
  isObject t = true -> plainKeys t = true ->
  processErrors t "" ∅ !! p
  = match descend (Some t) (Js.split p) with
    | Some (Node (msg :: _) _) => Some msg
    | _ => None
    end.
Proof.
  intros Hobj Hplain.
  destruct (descend (Some t) (Js.split p)) as [[[|msg msgs] ch]|] eqn:Hd.
  - destruct (processErrors t "" ∅ !! p) as [m|] eqn:Hw; [|done].
    apply (walk_entries t Hobj Hplain) in Hw as (ks & ms & c & Hks & -> & Hf).
    destruct ks as [|k ks]; [done|].
    rewrite (split_join k ks (follows_keys_plain _ _ _ Hplain Hf)) in Hd.
    rewrite (descend_follows _ _ _ Hf) in Hd. discriminate.
  - apply (walk_entries t Hobj Hplain).
    exists (Js.split p), msgs, ch. split; [apply split_nonempty|].
    split; [by rewrite join_split|]. by apply descend_Some_follows.
  - destruct (processErrors t "" ∅ !! p) as [m|] eqn:Hw; [|done].
    apply (walk_entries t Hobj Hplain) in Hw as (ks & ms & c & Hks & -> & Hf).
    destruct ks as [|k ks]; [done|].
    rewrite (split_join k ks (follows_keys_plain _ _ _ Hplain Hf)) in Hd.
    rewrite (descend_follows _ _ _ Hf) in Hd. discriminate.
Qed.

Section Agreement.
Context {Prim : Type} (schema : Schema Prim) (form : loc).

Lemma validateField_entry (w : World Prim) (error : ZodError) (p : string) :
  safeParse schema (heap w) form = ParseFailure error ->
  errors (snd (validateField schema form p w)) !! p
  = match descend (Some (format error)) (Js.split p) with
    | Some (Node (msg :: _) _) => Some msg
    | _ => None
    end.
Proof.
  intros Hp. unfold validateField. rewrite Hp.
  destruct (descend _ _) as [[[|msg msgs] ch]|]; simpl;
    first [apply lookup_delete_eq | apply lookup_insert_eq].
Qed.

(** X6. On a formatted error without empty or dotted keys, the entry
    [validateField p] leaves at [p] is the entry the walk of [validate]
    records at [p]: the same message, or none in both. *)
Theorem validateField_agrees_with_walk (w : World Prim) (error : ZodError)
    (p : string) :
  safeParse schema (heap w) form = ParseFailure error ->
  isObject (format error) = true ->
  plainKeys (format error) = true ->
  errors (snd (validateField schema form p w)) !! p
  = processErrors (format error) "" ∅ !! p.
Proof.
  intros Hp Hobj Hplain.
  rewrite (validateField_entry w error p Hp).
  by rewrite (walk_lookup_descend _ p Hobj Hplain).
Qed.

Lemma setErrors_same (w : World Prim) : setErrors (errors w) w = w.
Proof. by destruct w. Qed.

(** X7. After a full validation, a field validation changes nothing: when
    the formatted error of a failure has no root messages and no
    empty or dotted key, [validateField p] leaves the world [validate]
    left, and answers true exactly when that world has no entry at
    [p]. *)
Theorem validateField_after_validate (w : World Prim) (p : string) :
  (forall error,
      safeParse schema (heap w) form = ParseFailure error ->
      isObject (format error) = true
      /\ plainKeys (format error) = true
      /\ messages (format error) = []) ->
  let validated := snd (validate schema form w) in
  snd (validateField schema form p validated) = validated
  /\ (fst (validateField schema form p validated) = true
      <-> errors validated !! p = None).
Proof.
  intros Hshape. simpl.
  destruct (safeParse schema (heap w) form) as [|error] eqn:Hp.
  - rewrite (validate_success schema form w Hp). simpl.
    unfold validateField. simpl. rewrite Hp. simpl.
    rewrite delete_empty. split; [done|]. by rewrite lookup_empty.
  - destruct (Hshape error eq_refl) as (Hobj & Hplain & Hroot).
    rewrite (validate_failure schema form w error Hp). simpl.
    unfold placeRoot. rewrite Hroot.
    set (walked := processErrors (format error) "" ∅).
    pose proof (walk_lookup_descend (format error) p Hobj Hplain) as Hw.
    fold walked in Hw.
    unfold validateField. simpl. rewrite Hp.
    destruct (descend _ _) as [[[|msg msgs] ch]|]; simpl.
    + rewrite (delete_id _ _ Hw). by rewrite Hw.
    + rewrite (insert_id _ _ _ Hw). rewrite Hw. split; [done|].
      split; discriminate.
    + rewrite (delete_id _ _ Hw). by rewrite Hw.
Qed.
End Agreement.

(** ** Field validations among themselves *)

Section FieldAlgebra.
Context {Prim : Type} (schema : Schema Prim) (form : loc).

Lemma setErrors_setErrors (e1 e2 : ErrorMap) (w : World Prim) :
  setErrors e1 (setErrors e2 w) = setErrors e1 w.
Proof. reflexivity. Qed.

Lemma validateField_alter (w : World Prim) (p : string) :
  exists o : option string,
    forall w', heap w' = heap w ->
      validateField schema form p w'
      = (from_option (fun _ => false) true o,
         setErrors (partial_alter (fun _ => o) p (errors w')) w').
Proof.
  unfold validateField.
  destruct (safeParse schema (heap w) form) as [|error] eqn:Hp.
  - exists None. intros w' ->. by rewrite Hp.
  - destruct (descend (Some (format error)) (Js.split p))
      as [[[|msg msgs] ch]|] eqn:Hd.
    + exists None. intros w' ->. by rewrite Hp, Hd.
    + exists (Some msg). intros w' ->. by rewrite Hp, Hd.
    + exists None. intros w' ->. by rewrite Hp, Hd.
Qed.

(** X8. The answer of [validateField p] tells what it left in the map:
    true exactly when there is no entry at [p] afterwards. *)
Theorem validateField_answer_matches_entry (w : World Prim) (p : string) :
  fst (validateField schema form p w) = true
  <-> errors (snd (validateField schema form p w)) !! p = None.
Proof.
  destruct (validateField_alter w p) as [o Ho].
  rewrite (Ho w eq_refl). simpl.
  rewrite lookup_partial_alter. destruct (decide (p = p)); [|done].
  by destruct o.
Qed.

(** X9. Validating the same field twice in a row is the same as doing it
    once. *)
Theorem validateField_idempotent (w : World Prim) (p : string) :
  validateField schema form p (snd (validateField schema form p w))
  = validateField schema form p w.
Proof.
  destruct (validateField_alter w p) as [o Ho].
  rewrite (Ho w eq_refl). simpl.
  rewrite (Ho (setErrors _ w) eq_refl). simpl.
  rewrite setErrors_setErrors. do 2 f_equal.
  apply map_eq. intros i. rewrite !lookup_partial_alter.
  by destruct (decide (p = i)).
Qed.

(** X10. The order in which two fields are validated does not matter for
    the world they leave. *)
Theorem validateField_commute (w : World Prim) (p q : string) :
  snd (validateField schema form q (snd (validateField schema form p w)))
  = snd (validateField schema form p (snd (validateField schema form q w))).
Proof.
  destruct (validateField_alter w p) as [o Ho].
  destruct (validateField_alter w q) as [o' Ho'].
  rewrite (Ho w eq_refl), (Ho' w eq_refl). simpl.
  rewrite (Ho (setErrors _ w) eq_refl), (Ho' (setErrors _ w) eq_refl). simpl.
  rewrite !setErrors_setErrors. f_equal.
  destruct (decide (p = q)) as [->|Hne].
  - assert (o = o') as ->; [|done].
    pose proof (Ho w eq_refl) as H1. rewrite (Ho' w eq_refl) in H1.
    injection H1 as _ H1.
    assert (partial_alter (fun _ => o') q (errors w) !! q
            = partial_alter (fun _ => o) q (errors w) !! q) as Hq
      by (by rewrite H1).
    rewrite !lookup_partial_alter in Hq. by destruct (decide (q = q)).
  - apply map_eq. intros i. rewrite !lookup_partial_alter.
    destruct (decide (q = i)), (decide (p = i)); congruence.
Qed.

End FieldAlgebra.

(** ** More on submission *)

Section SubmitMore.
Context {Prim : Type} (schema : Schema Prim) (form : loc).

Lemma validate_true_inv (w : World Prim) :
  fst (validate schema form w) = true ->
  validate schema form w = (true, setErrors ∅ w).
Proof.
  destruct (safeParse schema (heap w) form) as [|error] eqn:Hp.
  - intros _. by apply validate_success.
  - by rewrite (validate_failure schema form w error Hp).
Qed.

(** X11. A submission refused by the validation ends normally with the
    errors of the failure in the map, as [validate] leaves them; the
    form, the flag and the console are as before. *)
Theorem handleSubmit_refused_shows_errors (onSubmit : Handler) (m : Machine)
    (error : ZodError) :
  safeParse schema (heap (world m)) form = ParseFailure error ->
  handleSubmit schema form onSubmit m
  = (Normal tt,
     {| world :=
          setErrors (placeRoot error (processErrors (format error) "" ∅))
            (world m);
        invoked := invoked m |}).
Proof.
  intros Hp. rewrite handleSubmit_invalid.
  - by rewrite (validate_failure schema form (world m) error Hp).
  - by rewrite (validate_failure schema form (world m) error Hp).
Qed.

(** X12. The handler is started with [isSubmitting] true and an empty error
    map; the console is as it was. *)
Theorem handler_started_submitting (onSubmit : Handler) (m : Machine)
    (values : loc) (started : World Prim) :
  fst (validate schema form (world m)) = true ->
  last (invoked (snd (handleSubmit schema form onSubmit m)))
  = Some (values, started) ->
  isSubmitting started = true
  /\ errors started = ∅
  /\ console started = console (world m).
Proof.
  intros Hv. rewrite (handleSubmit_valid schema form onSubmit m Hv). simpl.
  assert (last (invoked m ++ [(snapshotOf (world m),
                               callWorld schema form (world m))])
          = Some (values, started) ->
          started = callWorld schema form (world m)) as Hlast.
  { rewrite last_snoc. by intros [= _ <-]. }
  intros Hcall.
  assert (started = callWorld schema form (world m)) as ->.
  { apply Hlast. by destruct (onSubmit _ _) as [[[]|e] w']. }
  unfold callWorld. rewrite (validate_true_inv (world m) Hv). by simpl.
Qed.

(** X13. A handler that writes to no object but its snapshot leaves the
    form, and every object that was there when the action began, as
    it was. *)
Theorem snapshot_protects_form (onSubmit : Handler) (m : Machine) (l : loc) :
  fst (validate schema form (world m)) = true ->
  (forall values w l',
      l' <> values ->
      heap (snd (onSubmit values w)) !! l' = heap w !! l') ->
  l ∈ dom (heap (world m)) ->
  heap (world (snd (handleSubmit schema form onSubmit m))) !! l
  = heap (world m) !! l.
Proof.
  intros Hv Hconfined Hl.
  rewrite (handleSubmit_valid schema form onSubmit m Hv). simpl.
  assert (l <> snapshotOf (world m)) as Hne.
  { intros ->. revert Hl. unfold snapshotOf. apply is_fresh. }
  pose proof (Hconfined (snapshotOf (world m))
                (callWorld schema form (world m)) l Hne) as Hh.
  destruct (onSubmit _ _) as [[[]|e] w']; simpl in *; rewrite Hh;
    unfold callWorld; simpl; by apply lookup_insert_ne.
Qed.
End SubmitMore.

(** ** The watchers of [bindDynamicValid] *)

(** On the default values of the advanced page every primitive leaf is
    watched under its dotted path; [interests], an empty array, is not
    watched at all. *)
Example advanced_watch_targets :
  (fun ws => list_to_set (map target ws))
    <$> bindDynamicValid noNull 4 advancedDefaults (VRef 1%positive) ""
  = Some ({[ "fullName"; "role"; "paymentMethod"; "address.street";
             "address.city"; "address.aa.zipCode"; "creditCardNumber";
             "birthDate" ]} : gset string).
Proof. vm_compute. reflexivity. Qed.

Section WatcherFacts.
Context {Prim : Type} (isNull : Prim -> bool).

Lemma forIn_holds (h : Heap Prim) (v : Value Prim) (k : string)
    (c : Value Prim) :
  (k, c) ∈ forIn h v <-> holds h v k c.
Proof.
  unfold forIn, holds. split.
  - destruct v as [p|l]; [by intros ?%elem_of_nil|].
    intros Hin%elem_of_map_to_list.
    destruct (h !! l) as [o|] eqn:Hl; simpl in Hin.
    + by exists l, o.
    + by rewrite lookup_empty in Hin.
  - intros (l & o & -> & Hl & Hk). rewrite Hl. simpl.
    by apply elem_of_map_to_list.
Qed.

Lemma Forall2_elem_l {A B : Type} (P : A -> B -> Prop) (l : list A)
    (k : list B) (x : A) :
  Forall2 P l k -> x ∈ l -> exists y, y ∈ k /\ P x y.
Proof.
  induction 1 as [|a b l k Hab _ IH]; [by intros ?%elem_of_nil|].
  intros [->|Hin]%elem_of_cons.
  - exists b. split; [by left|done].
  - destruct (IH Hin) as (y & Hy & Hxy). exists y. split; [by right|done].
Qed.

Lemma Forall2_elem_r {A B : Type} (P : A -> B -> Prop) (l : list A)
    (k : list B) (y : B) :
  Forall2 P l k -> y ∈ k -> exists x, x ∈ l /\ P x y.
Proof.
  induction 1 as [|a b l k Hab _ IH]; [by intros ?%elem_of_nil|].
  intros [->|Hin]%elem_of_cons.
  - exists a. split; [by left|done].
  - destruct (IH Hin) as (x & Hx & Hxy). exists x. split; [by right|done].
Qed.

Lemma bindDynamicValid_step (fuel : nat) (h : Heap Prim) (v : Value Prim)
    (parent : string) (ws : list (Watcher (Prim := Prim))) :
  bindDynamicValid isNull (S fuel) h v parent = Some ws ->
  exists wss,
    ws = mjoin wss
    /\ Forall2
         (fun kv ws' =>
            (if typeofObject isNull (snd kv)
             then bindDynamicValid isNull fuel h (snd kv)
                    (newPath parent (fst kv))
             else Some [{| source := v; field := fst kv;
                           target := newPath parent (fst kv) |}])
            = Some ws')
         (forIn h v) wss.
Proof.
  simpl. intros (wss & Hm & ->)%fmap_Some. exists wss. split; [done|].
  by apply mapM_Some_1 in Hm.
Qed.

Lemma watchers_spec (fuel : nat) (h : Heap Prim) :
  forall (values : Value Prim) (parent : string)
         (ws : list (Watcher (Prim := Prim))),
    bindDynamicValid isNull fuel h values parent = Some ws ->
    forall w,
      w ∈ ws
      <-> exists ks obj leaf,
            reaches isNull h values ks obj
            /\ holds h obj (field w) leaf
            /\ typeofObject isNull leaf = false
            /\ source w = obj
            /\ target w = pathFrom parent (ks ++ [field w]).
Proof.
  induction fuel as [|fuel IH]; intros values parent ws Hb w; [done|].
  apply bindDynamicValid_step in Hb as (wss & -> & Hall).
  rewrite list_elem_of_join. split.
  - intros (ws' & Hw & Hws').
    destruct (Forall2_elem_r _ _ _ _ Hall Hws') as ([k c] & Hin & Hf).
    simpl in Hf. apply forIn_holds in Hin.
    destruct (typeofObject isNull c) eqn:Hc.
    + apply (IH _ _ _ Hf) in Hw
        as (ks & obj & leaf & Hr & Hh & Hleaf & Hs & Ht).
      exists (k :: ks), obj, leaf. repeat split; try done.
      by apply (reaches_down _ _ _ k c).
    + injection Hf as <-. apply list_elem_of_singleton in Hw as ->. simpl.
      exists [], values, c. repeat split; try done. constructor.
  - intros (ks & obj & leaf & Hr & Hh & Hleaf & Hs & Ht).
    inversion Hr as [v0|v0 k c ks' v' Hk Hc Hr']; subst.
    + apply forIn_holds in Hh.
      destruct (Forall2_elem_l _ _ _ _ Hall Hh) as (ws' & Hws' & Hf).
      simpl in Hf. rewrite Hleaf in Hf. injection Hf as <-.
      eexists. split; [|exact Hws'].
      apply list_elem_of_singleton. destruct w as [s f t]. simpl in *.
      by subst.
    + apply forIn_holds in Hk.
      destruct (Forall2_elem_l _ _ _ _ Hall Hk) as (ws' & Hws' & Hf).
      simpl in Hf. rewrite Hc in Hf.
      exists ws'. split; [|done].
      apply (IH _ _ _ Hf). by exists ks', (source w), leaf.
Qed.

(** X14. What [bindDynamicValid] installs, when it returns: a watcher for
    each property that is reached from [values] through objects and
    whose own [typeof] is not ["object"], and no other. The watcher
    reads that property of the object holding it, and calls
    [validateField] with the path made of the keys on the way. *)
Theorem bindDynamicValid_watchers (fuel : nat) (h : Heap Prim)
    (values : Value Prim) (parent : string)
    (ws : list (Watcher (Prim := Prim))) (w : Watcher) :
  bindDynamicValid isNull fuel h values parent = Some ws ->
  w ∈ ws
  <-> exists ks obj leaf,
        reaches isNull h values ks obj
        /\ holds h obj (field w) leaf
        /\ typeofObject isNull leaf = false
        /\ source w = obj
        /\ target w = pathFrom parent (ks ++ [field w]).
Proof. intros Hb. by apply (watchers_spec fuel h values parent ws). Qed.

Lemma bindDynamicValid_bounded (fuel : nat) (h : Heap Prim) :
  forall (values : Value Prim) (parent : string),
    is_Some (bindDynamicValid isNull fuel h values parent)
    <-> forall ks v', reaches isNull h values ks v' -> length ks < fuel.
Proof.
  induction fuel as [|fuel IH]; intros values parent.
  - simpl. split; [by intros [? ?]|].
    intros Hb. specialize (Hb [] values (reaches_here _ _ _)). simpl in Hb. lia.
  - simpl. rewrite fmap_is_Some, mapM_is_Some, Forall_forall. split.
    + intros Hall ks v' Hr.
      inversion Hr as [v0|v0 k c ks' v0' Hk Hc Hr']; subst; simpl; [lia|].
      apply forIn_holds in Hk. specialize (Hall _ Hk). simpl in Hall.
      rewrite Hc in Hall.
      pose proof (proj1 (IH _ _) Hall _ _ Hr') as Hlt. lia.
    + intros Hb [k c] Hin. simpl.
      destruct (typeofObject isNull c) eqn:Hc; [|by eexists].
      apply IH. intros ks v' Hr.
      apply forIn_holds in Hin.
      specialize (Hb (k :: ks) v' (reaches_down _ _ _ k c _ _ Hin Hc Hr)).
      simpl in Hb. lia.
Qed.

(** X15. [bindDynamicValid] returns within [fuel] nested calls exactly when
    every chain of keys through objects under [values] is shorter than
    [fuel]. *)
Theorem bindDynamicValid_returns_iff_bounded (fuel : nat) (h : Heap Prim)
    (values : Value Prim) (parent : string) :
  is_Some (bindDynamicValid isNull fuel h values parent)
  <-> forall ks v', reaches isNull h values ks v' -> length ks < fuel.
Proof. apply bindDynamicValid_bounded. Qed.

Lemma reaches_app (h : Heap Prim) (a b c : Value Prim) (ks ks' : list string) :
  reaches isNull h a ks b -> reaches isNull h b ks' c ->
  reaches isNull h a (ks ++ ks') c.
Proof.
  induction 1 as [v|v k c0 ks v' Hk Hc _ IH]; intros Hbc; simpl; [done|].
  apply (reaches_down _ _ _ k c0); [done|done|]. by apply IH.
Qed.

Lemma reaches_loop (h : Heap Prim) (v : Value Prim) (ks : list string)
    (n : nat) :
  reaches isNull h v ks v ->
  reaches isNull h v (mjoin (replicate n ks)) v.
Proof.
  intros Hloop. induction n as [|n IH]; simpl; [constructor|].
  by apply (reaches_app h v v v).
Qed.

(** X16. When a cycle through objects can be reached from [values], the
    recursion never returns, whatever depth it is allowed. The cycle
    need not pass through [values]: the form is a fresh copy that
    nothing refers to, and default values that refer to themselves
    are reached from it by one key. *)
Theorem bindDynamicValid_cycle_never_returns (h : Heap Prim)
    (values v : Value Prim) (ks0 ks : list string) :
  reaches isNull h values ks0 v ->
  ks <> [] ->
  reaches isNull h v ks v ->
  forall fuel parent, bindDynamicValid isNull fuel h values parent = None.
Proof.
  intros Hstart Hne Hloop fuel parent.
  destruct (bindDynamicValid isNull fuel h values parent) as [ws|] eqn:Hb;
    [|done].
  exfalso.
  assert (is_Some (bindDynamicValid isNull fuel h values parent)) as Hsome
    by (by rewrite Hb).
  pose proof (proj1 (bindDynamicValid_bounded _ _ _ _) Hsome
                _ _ (reaches_app h values v v _ _ Hstart
                       (reaches_loop h v ks fuel Hloop))) as Hlt.
  assert (fuel <= length (mjoin (replicate fuel ks))) as Hlen.
  { clear -Hne. induction fuel as [|n IH]; simpl; [lia|].
    rewrite length_app. destruct ks; [done|]. simpl. lia. }
  rewrite length_app in Hlt. lia.
Qed.

Lemma holds_functional (h : Heap Prim) (v : Value Prim) (k : string)
    (c c' : Value Prim) :
  holds h v k c -> holds h v k c' -> c = c'.
Proof.
  intros (l & o & -> & Hl & Hk) (l' & o' & [= <-] & Hl' & Hk').
  congruence.
Qed.

(** X17. A property whose value is an object, an array or [null] gets no
    watcher of its own: only what lies under it is watched, so that an
    empty array or a [null] field is not watched at all. *)
Theorem object_valued_field_unwatched (fuel : nat) (h : Heap Prim)
    (values : Value Prim) (parent : string)
    (ws : list (Watcher (Prim := Prim))) (obj : Value Prim) (k : string)
    (c : Value Prim) :
  bindDynamicValid isNull fuel h values parent = Some ws ->
  holds h obj k c ->
  typeofObject isNull c = true ->
  forall w, w ∈ ws -> ~ (source w = obj /\ field w = k).
Proof.
  intros Hb Hk Hc w Hw [Hs Hf].
  apply (watchers_spec fuel h values parent ws Hb) in Hw
    as (ks & obj' & leaf & _ & Hh & Hleaf & Hs' & _).
  rewrite Hs in Hs'. subst obj'. rewrite Hf in Hh.
  rewrite (holds_functional _ _ _ _ _ Hk Hh) in Hc. congruence.
Qed.
End WatcherFacts.

(** ** The path of an issue and the path of the walk *)

Lemma ofIndex_truthy (n : N) : Js.truthy (Js.ofIndex n) = true.
Proof. unfold Js.ofIndex. by destruct (N.to_uint n). Qed.

(** X18. The key under which the root step files a message for an issue is
    the key the walk uses for the node along the same path, provided
    the first element of the path is not the empty key. *)
Theorem joinPath_is_walk_path (e : PathElem) (rest : list PathElem) :
  showElem e <> "" ->
  joinPath (e :: rest) = pathFrom "" (map showElem (e :: rest)).
Proof.
  intros He. unfold joinPath. simpl map. symmetry. apply pathFrom_root.
  by destruct (showElem e).
Qed.

(** ** What a failing field validation reports *)

Section FieldReports.
Context {Prim : Type} (schema : Schema Prim) (form : loc).

(** X19. [validateField p] answers false only when the validation failed
    and the keys of [p] lead to a node with messages; that node lies
    below the root, so the messages of the root are never reported by
    a field validation. *)
Theorem validateField_false_only_on_node (w : World Prim) (p : string) :
  fst (validateField schema form p w) = false ->
  exists error k ks msg msgs ch,
    safeParse schema (heap w) form = ParseFailure error
    /\ Js.split p = k :: ks
    /\ follows (format error) (k :: ks) (Node (msg :: msgs) ch)
    /\ errors (snd (validateField schema form p w)) !! p = Some msg.
Proof.
  unfold validateField.
  destruct (safeParse schema (heap w) form) as [|error] eqn:Hp; [done|].
  destruct (descend (Some (format error)) (Js.split p))
    as [[[|msg msgs] ch]|] eqn:Hd; simpl; try done.
  intros _. pose proof (split_nonempty p) as Hne.
  destruct (Js.split p) as [|k ks] eqn:Hs; [done|].
  exists error, k, ks, msg, msgs, ch. repeat split.
  - by apply descend_Some_follows.
  - apply lookup_insert_eq.
Qed.
End FieldReports.

(** ** The further statements at the sample forms *)

Lemma validate_messages_from_tree_at_refine :
  exists ks msgs ch,
    follows (format refineError) ks (Node ("mismatch" :: msgs) ch).
Proof.
  apply (validate_messages_from_tree
           (constSchema (ParseFailure refineError)) formAt
           (worldOf emptyName ∅) refineError "name" "mismatch");
    [reflexivity | reflexivity | vm_compute; reflexivity].
Defined.

Lemma validate_fails_without_entries_at_root :
  validate (constSchema (ParseFailure rootOnlyError)) formAt
    (worldOf emptyName {[ "stale" := "old" ]})
  = (false, worldOf emptyName ∅).
Proof.
  rewrite (validate_fails_without_entries
             (constSchema (ParseFailure rootOnlyError)) formAt
             (worldOf emptyName {[ "stale" := "old" ]}) rootOnlyError);
    [reflexivity | reflexivity | reflexivity | repeat constructor].
Defined.

Lemma split_pathFrom_roundtrip_at_zip :
  Js.split (pathFrom "" ["address"; "aa"; "zipCode"])
  = ["address"; "aa"; "zipCode"].
Proof.
  apply split_pathFrom_roundtrip; [discriminate | repeat constructor].
Defined.

Lemma validateField_agrees_with_walk_at_nested :
  errors (snd (validateField (constSchema (ParseFailure nestedError)) formAt
                 "address.aa.zipCode" (worldOf emptyName ∅)))
  !! "address.aa.zipCode"
  = processErrors (format nestedError) "" ∅ !! "address.aa.zipCode".
Proof.
  apply (validateField_agrees_with_walk
           (constSchema (ParseFailure nestedError)) formAt
           (worldOf emptyName ∅) nestedError "address.aa.zipCode");
    reflexivity.
Defined.

Lemma validateField_after_validate_at_name :
  snd (validateField nameSchema formAt "name"
         (snd (validate nameSchema formAt (worldOf emptyName ∅))))
  = snd (validate nameSchema formAt (worldOf emptyName ∅)).
Proof.
  apply (validateField_after_validate nameSchema formAt
           (worldOf emptyName ∅) "name").
  intros error Herr. vm_compute in Herr. injection Herr as <-.
  repeat split.
Defined.

Lemma handleSubmit_refused_shows_errors_at_name :
  handleSubmit nameSchema formAt okHandler (idle (worldOf emptyName ∅))
  = (Normal tt, idle (worldOf emptyName {[ "name" := "required" ]})).
Proof.
  rewrite (handleSubmit_refused_shows_errors nameSchema formAt okHandler
             (idle (worldOf emptyName ∅))
             {| issues := [{| path := [Key "name"]; message := "required" |}];
                format := Node [] [("name", Node ["required"] [])] |});
    [vm_compute; reflexivity | vm_compute; reflexivity].
Defined.

Lemma handler_started_submitting_at_name :
  isSubmitting (callWorld nameSchema formAt (worldOf someName ∅)) = true
  /\ errors (callWorld nameSchema formAt (worldOf someName ∅)) = ∅
  /\ console (callWorld nameSchema formAt (worldOf someName ∅)) = [].
Proof.
  apply (handler_started_submitting nameSchema formAt okHandler
           (idle (worldOf someName ∅))
           (snapshotOf (worldOf someName ∅))
           (callWorld nameSchema formAt (worldOf someName ∅)));
    vm_compute; reflexivity.
Defined.

Lemma snapshot_protects_form_at_name :
  heap (world (snd (handleSubmit nameSchema formAt okHandler
                      (idle (worldOf someName ∅))))) !! formAt
  = Some someName.
Proof.
  rewrite (snapshot_protects_form nameSchema formAt okHandler
             (idle (worldOf someName ∅)) formAt).
  - vm_compute. reflexivity.
  - vm_compute. reflexivity.
  - intros values w l' _. reflexivity.
  - apply elem_of_dom. eexists. vm_compute. reflexivity.
Defined.

Lemma joinPath_is_walk_path_at_index :
  joinPath [Key "items"; Index 3; Key "name"]
  = pathFrom "" ["items"; "3"; "name"].
Proof.
  apply (joinPath_is_walk_path (Key "items") [Index 3; Key "name"]).
  discriminate.
Defined.

Lemma bindDynamicValid_watchers_at_zip :
  exists ws,
    bindDynamicValid noNull 4 advancedDefaults (VRef 1%positive) "" = Some ws
    /\ {| source := VRef 4%positive; field := "zipCode";
          target := "address.aa.zipCode" |} ∈ ws.
Proof.
  destruct (bindDynamicValid noNull 4 advancedDefaults (VRef 1%positive) "")
    as [ws|] eqn:Hb; [|vm_compute in Hb; discriminate].
  exists ws. split; [reflexivity|].
  apply (bindDynamicValid_watchers noNull 4 advancedDefaults
           (VRef 1%positive) "" ws _ Hb).
  exists ["address"; "aa"], (VRef 4%positive), (VPrim "").
  split.
  { apply (reaches_down _ _ _ "address" (VRef 3%positive));
      [eexists _, _; split; [reflexivity|];
       split; vm_compute; reflexivity | reflexivity |].
    apply (reaches_down _ _ _ "aa" (VRef 4%positive));
      [eexists _, _; split; [reflexivity|];
       split; vm_compute; reflexivity | reflexivity |].
    apply reaches_here. }
  split.
  { eexists _, _. split; [reflexivity|]. split; vm_compute; reflexivity. }
  repeat split.
Defined.

Lemma object_valued_field_unwatched_at_interests :
  exists ws,
    bindDynamicValid noNull 4 advancedDefaults (VRef 1%positive) "" = Some ws
    /\ forall w, w ∈ ws ->
         ~ (source w = VRef 1%positive /\ field w = "interests").
Proof.
  destruct (bindDynamicValid noNull 4 advancedDefaults (VRef 1%positive) "")
    as [ws|] eqn:Hb; [|vm_compute in Hb; discriminate].
  exists ws. split; [reflexivity|].
  apply (object_valued_field_unwatched noNull 4 advancedDefaults
           (VRef 1%positive) "" ws (VRef 1%positive) "interests"
           (VRef 2%positive) Hb); [|reflexivity].
  eexists _, _. split; [reflexivity|]. split; vm_compute; reflexivity.
Defined.

Lemma bindDynamicValid_cycle_never_returns_at_self :
  bindDynamicValid noNull 1000 (snd (copyOf selfHeap 1%positive))
    (VRef (fst (copyOf selfHeap 1%positive))) ""
  = None.
Proof.
  apply (bindDynamicValid_cycle_never_returns noNull
           (snd (copyOf selfHeap 1%positive))
           (VRef (fst (copyOf selfHeap 1%positive))) (VRef 1%positive)
           ["self"] ["self"]).
  - apply (reaches_down _ _ _ "self" (VRef 1%positive));
      [eexists _, _; split; [reflexivity|];
       split; vm_compute; reflexivity | reflexivity | apply reaches_here].
  - discriminate.
  - apply (reaches_down _ _ _ "self" (VRef 1%positive));
      [eexists _, _; split; [reflexivity|];
       split; vm_compute; reflexivity | reflexivity | apply reaches_here].
Defined.

Lemma validateField_false_only_on_node_at_name :
  exists error k ks msg msgs ch,
    safeParse nameSchema (heap (worldOf emptyName ∅)) formAt
    = ParseFailure error
    /\ Js.split "name" = k :: ks
    /\ follows (format error) (k :: ks) (Node (msg :: msgs) ch)
    /\ errors (snd (validateField nameSchema formAt "name"
                      (worldOf emptyName ∅))) !! "name" = Some msg.
Proof.
  apply (validateField_false_only_on_node nameSchema formAt
           (worldOf emptyName ∅) "name").
  vm_compute. reflexivity.
Defined.
